(** * sort.js: column sorting and error filtering of an HTML table

    A shallow embedding of [src/sort.js] and of the host functions it calls
    (String.prototype.trim and toLowerCase, isNaN, parseFloat, the relational
    operators, Array.prototype.sort, DOMTokenList, Node.appendChild).

    Text is a Rocq [string]: a sequence of code units below 256, so the model
    covers cell text in the Latin-1 range, where every host function used
    here is determined by ECMA-262 and is written out below.  Numbers are
    IEEE binary64 values, as [spec_float] with [prec = 53], [emax = 1024]. *)

From Stdlib Require Import ZArith NArith List Bool Ascii String Lia.
From Stdlib Require Import Permutation Sorted.
From Stdlib Require Import Floats.SpecFloat.
Import ListNotations.

Local Open Scope string_scope.
Local Open Scope Z_scope.

(** ** Host semantics *)

Module JS.

(** *** Code units and strings *)

Definition code (c : ascii) : N := N_of_ascii c.

Definition between (lo hi : N) (c : ascii) : bool :=
  ((lo <=? code c) && (code c <=? hi))%N.

(** WhiteSpace and LineTerminator code units below 256: TAB, LF, VT, FF, CR,
    SP and NBSP. *)
Definition isWhiteSpace (c : ascii) : bool :=
  (between 9 13 c || (code c =? 32) || (code c =? 160))%N.

Fixpoint trimStart (s : string) : string :=
  match s with
  | EmptyString => EmptyString
  | String c s' => if isWhiteSpace c then trimStart s' else s
  end.

Fixpoint trimEnd (s : string) : string :=
  match s with
  | EmptyString => EmptyString
  | String c s' =>
      match trimEnd s' with
      | EmptyString => if isWhiteSpace c then EmptyString else String c EmptyString
      | r => String c r
      end
  end.

(** String.prototype.trim *)
Definition trim (s : string) : string := trimEnd (trimStart s).

(** Upper-case code units below 256: A-Z and the Latin-1 capitals
    U+00C0-U+00DE without the multiplication sign U+00D7; each has its
    lower-case partner 32 places above. *)
Definition isUpper (c : ascii) : bool :=
  between 65 90 c || (between 192 222 c && negb (code c =? 215)%N).

Definition lowerChar (c : ascii) : ascii :=
  if isUpper c then ascii_of_N (code c + 32) else c.

(** String.prototype.toLowerCase *)
Fixpoint toLowerCase (s : string) : string :=
  match s with
  | EmptyString => EmptyString
  | String c s' => String (lowerChar c) (toLowerCase s')
  end.

(** IsLessThan on two strings: the order of the first code unit that
    differs, a proper prefix being smaller. *)
Fixpoint string_lt (a b : string) : bool :=
  match a, b with
  | _, EmptyString => false
  | EmptyString, String _ _ => true
  | String x a', String y b' =>
      if (code x <? code y)%N then true
      else if (code y <? code x)%N then false
      else string_lt a' b'
  end.

Fixpoint span (p : ascii -> bool) (s : string) : string * string :=
  match s with
  | EmptyString => (EmptyString, EmptyString)
  | String c s' =>
      if p c then let (a, b) := span p s' in (String c a, b)
      else (EmptyString, s)
  end.

Fixpoint strip_prefix (p s : string) : option string :=
  match p, s with
  | EmptyString, _ => Some s
  | String x p', String y s' =>
      if Ascii.eqb x y then strip_prefix p' s' else None
  | String _ _, EmptyString => None
  end.

Definition is_empty (s : string) : bool :=
  match s with EmptyString => true | _ => false end.

(** *** Numbers *)

Definition prec : Z := 53.
Definition emax : Z := 1024.

Definition number := spec_float.

Definition NaN : number := S754_nan.

Definition is_nan (x : number) : bool :=
  match x with S754_nan => true | _ => false end.

Definition is_finite (x : number) : bool :=
  match x with S754_zero _ | S754_finite _ _ _ => true | _ => false end.

(** The Number value for the real [m * 10^e], [m >= 0], with sign [neg]:
    round to nearest, ties to even.  (ECMA-262 lets an engine cut a literal
    after its twentieth significant digit; the engines round the whole
    literal, and so does this definition.) *)
Definition round_decimal (neg : bool) (m e : Z) : number :=
  if 0 <=? e then
    match m * 10 ^ e with
    | Zpos p => binary_round prec emax neg p 0
    | _ => S754_zero neg
    end
  else
    match m with
    | Zpos _ =>
        let '(q, e', l) := SFdiv_core_binary prec emax m 0 (10 ^ (- e)) 0 in
        binary_round_aux prec emax neg q e' l
    | _ => S754_zero neg
    end.

Definition isDecimalDigit (c : ascii) : bool := between 48 57 c.
Definition isBinaryDigit (c : ascii) : bool := between 48 49 c.
Definition isOctalDigit (c : ascii) : bool := between 48 55 c.
Definition isHexDigit (c : ascii) : bool :=
  between 48 57 c || between 97 102 c || between 65 70 c.

Definition digit_value (c : ascii) : Z :=
  if between 48 57 c then Z.of_N (code c) - 48
  else if between 97 102 c then Z.of_N (code c) - 87
  else Z.of_N (code c) - 55.

(** The mathematical value of a run of digits in the given radix. *)
Fixpoint digits_MV (radix acc : Z) (s : string) : Z :=
  match s with
  | EmptyString => acc
  | String c s' => digits_MV radix (radix * acc + digit_value c) s'
  end.

Inductive UnsignedLiteral :=
  | LitInfinity
  | LitDecimal (mantissa exponent : Z).

Record StrDecimalLiteral := { lit_neg : bool; lit_body : UnsignedLiteral }.

(** StringNumericValue of a StrDecimalLiteral. *)
Definition literal_value (l : StrDecimalLiteral) : number :=
  match lit_body l with
  | LitInfinity => S754_infinity (lit_neg l)
  | LitDecimal m e => round_decimal (lit_neg l) m e
  end.

Definition isExponentIndicator (c : ascii) : bool :=
  ((code c =? 101) || (code c =? 69))%N.

(** An optional sign + or -; [true] for the minus. *)
Definition parse_sign (s : string) : bool * string :=
  match s with
  | String c r =>
      if (code c =? 43)%N then (false, r)
      else if (code c =? 45)%N then (true, r)
      else (false, s)
  | EmptyString => (false, s)
  end.

(** ExponentPart: e or E, an optional sign, at least one digit. *)
Definition parse_ExponentPart (s : string) : option (Z * string) :=
  match s with
  | String c r =>
      if isExponentIndicator c then
        let (neg, r1) := parse_sign r in
        let (ds, r2) := span isDecimalDigit r1 in
        if is_empty ds then None
        else Some (if neg then - digits_MV 10 0 ds else digits_MV 10 0 ds, r2)
      else None
  | EmptyString => None
  end.

(** A dot and the digits after it, if the text starts with a dot. *)
Definition parse_fraction (s : string) : string * string :=
  match s with
  | String c r =>
      if (code c =? 46)%N then span isDecimalDigit r else (EmptyString, s)
  | EmptyString => (EmptyString, s)
  end.

(** The longest prefix made of digits with an optional fraction and an
    optional exponent, at least one digit before the exponent, and what
    follows it. *)
Definition parse_digits_literal (s : string)
  : option (UnsignedLiteral * string) :=
  let (ip, r1) := span isDecimalDigit s in
  let (fp, r2) := parse_fraction r1 in
  if is_empty ip && is_empty fp then None
  else
    let (e, r3) :=
      match parse_ExponentPart r2 with
      | Some er => er
      | None => (0, r2)
      end in
    Some (LitDecimal (digits_MV 10 0 (ip ++ fp))
                     (e - Z.of_nat (String.length fp)), r3).

(** The longest prefix that is a StrUnsignedDecimalLiteral, and what
    follows it. *)
Definition parse_StrUnsignedDecimalLiteral (s : string)
  : option (UnsignedLiteral * string) :=
  match strip_prefix "Infinity" s with
  | Some r => Some (LitInfinity, r)
  | None => parse_digits_literal s
  end.

(** The longest prefix that is a StrDecimalLiteral, and what follows it. *)
Definition parse_StrDecimalLiteral (s : string)
  : option (StrDecimalLiteral * string) :=
  let (neg, r) := parse_sign s in
  match parse_StrUnsignedDecimalLiteral r with
  | Some (u, rest) => Some ({| lit_neg := neg; lit_body := u |}, rest)
  | None => None
  end.

(** The digits of a NonDecimalIntegerLiteral after its prefix: at least
    one, nothing after. *)
Definition parse_radix_digits (radix : Z) (p : ascii -> bool) (ds : string)
  : option Z :=
  let (d, rest) := span p ds in
  if is_empty d || negb (is_empty rest) then None
  else Some (digits_MV radix 0 d).

(** NonDecimalIntegerLiteral: 0b, 0o or 0x (either case) and the digits of
    that radix. *)
Definition parse_NonDecimalIntegerLiteral (s : string) : option Z :=
  match s with
  | String z (String k ds) =>
      if (code z =? 48)%N then
        if ((code k =? 98) || (code k =? 66))%N then
          parse_radix_digits 2 isBinaryDigit ds
        else if ((code k =? 111) || (code k =? 79))%N then
          parse_radix_digits 8 isOctalDigit ds
        else if ((code k =? 120) || (code k =? 88))%N then
          parse_radix_digits 16 isHexDigit ds
        else None
      else None
  | _ => None
  end.

(** StringToNumber: ToNumber applied to a string. *)
Definition StringToNumber (s : string) : number :=
  let t := trim s in
  if is_empty t then S754_zero false
  else
    match parse_NonDecimalIntegerLiteral t with
    | Some n => binary_normalize prec emax n 0 false
    | None =>
        match parse_StrDecimalLiteral t with
        | Some (l, EmptyString) => literal_value l
        | _ => NaN
        end
    end.

(** The global isNaN, applied to a string. *)
Definition isNaN (s : string) : bool := is_nan (StringToNumber s).

(** The global parseFloat, applied to a string. *)
Definition parseFloat (s : string) : number :=
  match parse_StrDecimalLiteral (trimStart s) with
  | Some (l, _) => literal_value l
  | None => NaN
  end.

(** The grammar StringNumericLiteral: white space only, or a numeric
    literal between optional white space. *)
Definition whole_decimal (t : string) : bool :=
  match parse_StrDecimalLiteral t with
  | Some (_, EmptyString) => true
  | _ => false
  end.

Definition whole_nondecimal (t : string) : bool :=
  match parse_NonDecimalIntegerLiteral t with
  | Some _ => true
  | None => false
  end.

Definition isStringNumericLiteral (s : string) : bool :=
  let t := trim s in
  is_empty t || whole_nondecimal t || whole_decimal t.

(** *** Language values and the relational operators *)

Inductive value :=
  | VNum (n : number)
  | VStr (s : string).

Definition ToNumber (v : value) : number :=
  match v with
  | VNum n => n
  | VStr s => StringToNumber s
  end.

(** IsLessThan: [None] is the result undefined, given when either operand
    converts to NaN. *)
Definition IsLessThan (x y : value) : option bool :=
  match x, y with
  | VStr a, VStr b => Some (string_lt a b)
  | _, _ =>
      match SFcompare (ToNumber x) (ToNumber y) with
      | Some Lt => Some true
      | Some _ => Some false
      | None => None
      end
  end.

(** [x < y] *)
Definition lt (x y : value) : bool :=
  match IsLessThan x y with Some r => r | None => false end.

(** [x > y] *)
Definition gt (x y : value) : bool :=
  match IsLessThan y x with Some r => r | None => false end.

(** *** Completions *)

Inductive exn := TypeError.

Inductive completion (A : Type) :=
  | Normal (a : A)
  | Throw (e : exn).
Arguments Normal {A} a.
Arguments Throw {A} e.

Definition bind {A B : Type} (c : completion A) (k : A -> completion B)
  : completion B :=
  match c with
  | Normal a => k a
  | Throw e => Throw e
  end.

Notation "x <- c ;; k" := (bind c (fun x => k))
  (at level 61, c at next level, right associativity).

(** *** Array.prototype.sort

    ECMA-262 leaves the sequence of comparefn calls to the engine, asks for
    a stable sort when comparefn is consistent, and stops at the first call
    that throws; when comparefn is not consistent the order is
    implementation-defined.  [sort] is the stable insertion sort: an element
    moves past those on its right that comparefn puts strictly before it.
    It gives the order every engine gives under a consistent comparator, and
    one of the orders an engine may give otherwise; [TimSort_short] below is
    the method of V8, which gives another. *)

Section ArraySort.
Context {A : Type}.
Variable comparefn : A -> A -> completion Z.

Fixpoint insert (x : A) (l : list A) : completion (list A) :=
  match l with
  | [] => Normal [x]
  | y :: l' =>
      v <- comparefn x y ;;
      if v <=? 0 then Normal (x :: l)
      else r <- insert x l' ;; Normal (y :: r)
  end.

Fixpoint sort (l : list A) : completion (list A) :=
  match l with
  | [] => Normal []
  | x :: l' => s <- sort l' ;; insert x s
  end.
End ArraySort.

(** The method of V8 on an array of fewer than 64 elements, where the whole
    array is one run of its TimSort: [CountAndMakeRun] takes the longest
    run at the start that is non-decreasing or strictly decreasing, and
    reverses it if decreasing; [BinaryInsertionSort] then puts each further
    element in its place by binary search.  (Longer arrays are cut into
    several runs that are merged; that part is not modelled.) *)
Section TimSort.
Context {A : Type}.
Variable comparefn : A -> A -> completion Z.

Fixpoint extend_run (descending : bool) (previous : A) (l : list A)
  : completion (list A * list A) :=
  match l with
  | [] => Normal ([], [])
  | current :: l' =>
      order <- comparefn current previous ;;
      if (if descending then 0 <=? order else order <? 0) then Normal ([], l)
      else r <- extend_run descending current l' ;;
           Normal (current :: fst r, snd r)
  end.

Definition CountAndMakeRun (l : list A) : completion (list A * list A) :=
  match l with
  | high :: low :: l' =>
      order <- comparefn low high ;;
      let descending := order <? 0 in
      r <- extend_run descending low l' ;;
      let run := high :: low :: fst r in
      Normal (if descending then rev run else run, snd r)
  | _ => Normal (l, [])
  end.

(** The binary search of [BinaryInsertionSort] for the place of [pivot] in
    [run] between [left] and [right]; [fuel] bounds the halvings. *)
Fixpoint search (fuel : nat) (pivot : A) (run : list A) (left right : nat)
  : completion nat :=
  match fuel with
  | O => Normal left
  | S fuel' =>
      if Nat.ltb left right then
        let mid := (left + Nat.div2 (right - left))%nat in
        match nth_error run mid with
        | Some y =>
            order <- comparefn pivot y ;;
            if order <? 0 then search fuel' pivot run left mid
            else search fuel' pivot run (S mid) right
        | None => Normal left
        end
      else Normal left
  end.

Fixpoint BinaryInsertionSort (run rest : list A) : completion (list A) :=
  match rest with
  | [] => Normal run
  | pivot :: rest' =>
      left <- search (List.length run) pivot run 0 (List.length run) ;;
      BinaryInsertionSort
        (firstn left run ++ pivot :: skipn left run)%list rest'
  end.

Definition TimSort_short (l : list A) : completion (list A) :=
  r <- CountAndMakeRun l ;; BinaryInsertionSort (fst r) (snd r).
End TimSort.

(** *** DOMTokenList *)

Definition DOMTokenList := list string.

Definition contains (l : DOMTokenList) (token : string) : bool :=
  existsb (String.eqb token) l.

Definition remove (tokens : list string) (l : DOMTokenList) : DOMTokenList :=
  filter (fun t => negb (existsb (String.eqb t) tokens)) l.

Definition add (token : string) (l : DOMTokenList) : DOMTokenList :=
  if contains l token then l else (l ++ [token])%list.

Definition toggle (token : string) (force : bool) (l : DOMTokenList)
  : DOMTokenList :=
  if force then add token l else remove [token] l.

End JS.

Import JS.

(** ** The document *)

(** A row element is known by its address; its cells and class list live in
    the heap, so that the array built by Array.from and the body of the
    table share the row objects. *)
Definition node := nat.
Bind Scope nat_scope with node.

Record Row := {
  cells : list string;          (* textContent of each cell, in order *)
  classList : DOMTokenList
}.

Record Document := {
  ths : list DOMTokenList;      (* classList of each th, in document order *)
  tbody : list node;            (* tbody.rows *)
  heap : node -> Row
}.

Definition set_ths (d : Document) (l : list DOMTokenList) : Document :=
  {| ths := l; tbody := tbody d; heap := heap d |}.

Definition set_tbody (d : Document) (l : list node) : Document :=
  {| ths := ths d; tbody := l; heap := heap d |}.

Definition set_classList (d : Document) (n : node) (c : DOMTokenList)
  : Document :=
  {| ths := ths d; tbody := tbody d;
     heap := fun m =>
       if Nat.eqb m n then {| cells := cells (heap d n); classList := c |}
       else heap d m |}.

(** The class list of the [h]-th th; a header handed to [sortTable] is
    always one of the table's, an index past the end reads as no classes. *)
Definition th_classList (d : Document) (h : nat) : DOMTokenList :=
  nth h (ths d) [].

Fixpoint update_nth {A : Type} (n : nat) (f : A -> A) (l : list A) : list A :=
  match l, n with
  | [], _ => []
  | x :: l', O => f x :: l'
  | x :: l', S n' => x :: update_nth n' f l'
  end.

(** Node.appendChild on the body: a row already in the body is moved to
    the end. *)
Definition appendChild (d : Document) (row : node) : Document :=
  set_tbody d (filter (fun k => negb (Nat.eqb k row)) (tbody d) ++ [row])%list.

(** ** sort.js *)

(** Lines 23-24: [a.cells[colIndex].textContent.trim()]; reading
    textContent of a missing cell throws. *)
Definition cellText (d : Document) (colIndex : nat) (a : node)
  : completion string :=
  match nth_error (cells (heap d a)) colIndex with
  | Some text => Normal (trim text)
  | None => Throw TypeError
  end.

(** Lines 26-27. *)
Definition sortKey (cell : string) : value :=
  if isNaN cell then VStr (toLowerCase cell) else VNum (parseFloat cell).

(** Lines 29-31. *)
Definition signal (direction : Z) (aValue bValue : value) : Z :=
  if gt aValue bValue then direction
  else if lt aValue bValue then - direction
  else 0.

(** Lines 22-32: the comparator handed to [rows.sort]. *)
Definition comparator (d : Document) (direction : Z) (colIndex : nat)
  (a b : node) : completion Z :=
  cellA <- cellText d colIndex a ;;
  cellB <- cellText d colIndex b ;;
  Normal (signal direction (sortKey cellA) (sortKey cellB)).

(** Lines 10-39, without the console.log.  [header] is the position of the
    clicked th among the table's th elements.  The document is returned with
    the completion: a throw in the comparator leaves the headers cleared and
    the body as it was. *)
Definition sortTable (colIndex : nat) (header : nat) (d : Document)
  : completion unit * Document :=
  let rows := tbody d in
  let isAscending := contains (th_classList d header) "sorted-asc" in
  let direction := if isAscending then -1 else 1 in
  let d1 := set_ths d (map (remove ["sorted-asc"; "sorted-desc"]) (ths d)) in
  match sort (comparator d1 direction colIndex) rows with
  | Throw e => (Throw e, d1)
  | Normal sorted =>
      let d2 := fold_left appendChild sorted d1 in
      let d3 :=
        set_ths d2
          (update_nth header
             (add (if isAscending then "sorted-desc" else "sorted-asc"))
             (ths d2)) in
      (Normal tt, d3)
  end.

(** Lines 6-8: the click listener of the [index]-th th. *)
Definition click (index : nat) (d : Document) : completion unit * Document :=
  sortTable index index d.

(** Lines 47-51: the body of the loop over the rows. *)
Definition filterRow (checked : bool) (d : Document) (row : node) : Document :=
  let c := classList (heap d row) in
  if checked then
    set_classList d row (toggle "hidden" (negb (contains c "error")) c)
  else set_classList d row (remove ["hidden"] c).

(** Lines 42-53: the change listener of the checkbox, [checked] being
    [filterCheckbox.checked]. *)
Definition change (checked : bool) (d : Document) : Document :=
  fold_left (filterRow checked) (tbody d) d.

(** The markers the listeners read and write. *)
Definition sortedAsc (d : Document) (h : nat) : bool :=
  contains (th_classList d h) "sorted-asc".
Definition sortedDesc (d : Document) (h : nat) : bool :=
  contains (th_classList d h) "sorted-desc".
Definition hidden (d : Document) (n : node) : bool :=
  contains (classList (heap d n)) "hidden".
Definition error (d : Document) (n : node) : bool :=
  contains (classList (heap d n)) "error".

(** The structural precondition on the clicked column: every body row has
    a cell there. *)
Definition has_column (d : Document) (colIndex : nat) : Prop :=
  forall n, In n (tbody d) -> (colIndex < List.length (cells (heap d n)))%nat.

(** The structural precondition of the page: one cell per th in each row. *)
Definition well_formed (d : Document) : Prop :=
  forall n, In n (tbody d) ->
    List.length (cells (heap d n)) = List.length (ths d).

(** ** The specification's wording of the sort key

    "if it parses as a finite number use the numeric value, otherwise the
    lower-cased text", to be compared with [sortKey]. *)
Definition spec_sortKey (cell : string) : value :=
  if is_finite (parseFloat cell) then VNum (parseFloat cell)
  else VStr (toLowerCase cell).

(** The key of a text that is a whole decimal literal (digits with an
    optional fraction and exponent, or Infinity, optionally signed), and of
    a text that does not convert to a number. *)
Inductive key_of : string -> value -> Prop :=
  | key_number t l :
      parse_StrDecimalLiteral t = Some (l, EmptyString) ->
      key_of t (VNum (literal_value l))
  | key_text t :
      StringToNumber t = NaN ->
      key_of t (VStr (toLowerCase t)).

(** What a parser leaves unread. *)
Definition rest_of {A : Type} (o : option (A * string)) : option string :=
  match o with
  | Some (_, r) => Some r
  | None => None
  end.

(** ** A sample page *)

Definition sample_heap (n : node) : Row :=
  match n with
  | 0%nat => {| cells := ["10"; "Beta"]; classList := ["error"] |}
  | 1%nat => {| cells := [" 9 "; "alpha"]; classList := ["hidden"] |}
  | 2%nat => {| cells := ["2"; "Infinity"]; classList := [] |}
  | 3%nat => {| cells := ["7"]; classList := [] |}
  | _ => {| cells := []; classList := [] |}
  end.

Definition sample : Document :=
  {| ths := [[]; ["sorted-asc"]]; tbody := [0; 1; 2]%nat; heap := sample_heap |}.

(** The sample with a fourth row that lacks the second cell. *)
Definition sample_short : Document :=
  {| ths := [[]; ["sorted-asc"]]; tbody := [0; 1; 2; 3]%nat; heap := sample_heap |}.

(** ** Reading a column *)

(** The key the comparator derives for a row: lines 23 and 26 on the cell
    of the clicked column ([None] when the row has no such cell). *)
Definition rowKey (d : Document) (colIndex : nat) (n : node) : option value :=
  match nth_error (cells (heap d n)) colIndex with
  | Some text => Some (sortKey (trim text))
  | None => None
  end.

(** The place of a number among the numbers: the sign class first (minus
    infinity, negative, zero, positive, plus infinity), then exponent and
    mantissa, mirrored for the negative ones.  NaN has no place. *)
Definition float_rank (x : number) : Z * Z * Z :=
  match x with
  | S754_infinity true => (-2, 0, 0)
  | S754_finite true m e => (-1, - e, - Zpos m)
  | S754_zero _ => (0, 0, 0)
  | S754_finite false m e => (1, e, Zpos m)
  | S754_infinity false => (2, 0, 0)
  | S754_nan => (3, 0, 0)
  end.

Definition rank_compare (a b : Z * Z * Z) : comparison :=
  let '(a1, a2, a3) := a in
  let '(b1, b2, b3) := b in
  match a1 ?= b1 with
  | Eq => match a2 ?= b2 with Eq => a3 ?= b3 | c => c end
  | c => c
  end.

(** The comparator as a function of the two keys, for rows that have the
    cell (0 stands in where the comparator throws). *)
Definition rowSignal (d : Document) (direction : Z) (colIndex : nat)
  (a b : node) : Z :=
  match rowKey d colIndex a, rowKey d colIndex b with
  | Some ka, Some kb => signal direction ka kb
  | _, _ => 0
  end.

(** The trimmed text of a cell, the number parseFloat reads from it and its
    lower-cased form (of the empty text when the row has no such cell). *)
Definition cellTrimmed (d : Document) (colIndex : nat) (n : node) : string :=
  trim (nth colIndex (cells (heap d n)) EmptyString).

Definition cellNumber (d : Document) (colIndex : nat) (n : node) : number :=
  parseFloat (cellTrimmed d colIndex n).

Definition cellLower (d : Document) (colIndex : nat) (n : node) : string :=
  toLowerCase (cellTrimmed d colIndex n).

(** ** A second sample page: a numeric column with a tie, a text column in
       mixed case, and a column with empty cells and a hex literal *)

Definition ledger_heap (n : node) : Row :=
  match n with
  | 0%nat => {| cells := ["3"; "pear"; ""]; classList := [] |}
  | 1%nat => {| cells := ["1"; "Apple"; "0x1F"]; classList := ["error"] |}
  | 2%nat => {| cells := [" 2"; "fig"; "  "]; classList := ["odd"; "hidden"] |}
  | 3%nat => {| cells := ["1.0"; "apple "; "x"]; classList := ["hidden"; "error"] |}
  | _ => {| cells := []; classList := ["hidden"] |}
  end.

Definition ledger : Document :=
  {| ths := [["sorted-desc"]; ["wide"; "sorted-asc"]; []];
     tbody := [0; 1; 2; 3]%nat;
     heap := ledger_heap |}.

(** A page that agrees with [ledger] on the body and on the first column
    only. *)
Definition ledger_variant : Document :=
  {| ths := [["narrow"]];
     tbody := [0; 1; 2; 3]%nat;
     heap := fun n =>
       {| cells := firstn 1 (cells (ledger_heap n)) ++ ["other"];
          classList := ["hidden"] |} |}.

(** [sortTable] with the sorting method of the engine left open; with
    [sort] it is [sortTable]. *)
Definition sortTableWith
  (array_sort : (node -> node -> completion Z) -> list node ->
                completion (list node))
  (colIndex : nat) (header : nat) (d : Document)
  : completion unit * Document :=
  let rows := tbody d in
  let isAscending := contains (th_classList d header) "sorted-asc" in
  let direction := if isAscending then -1 else 1 in
  let d1 := set_ths d (map (remove ["sorted-asc"; "sorted-desc"]) (ths d)) in
  match array_sort (comparator d1 direction colIndex) rows with
  | Throw e => (Throw e, d1)
  | Normal sorted =>
      let d2 := fold_left appendChild sorted d1 in
      let d3 :=
        set_ths d2
          (update_nth header
             (add (if isAscending then "sorted-desc" else "sorted-asc"))
             (ths d2)) in
      (Normal tt, d3)
  end.

(** A page with one column that reads 3, 1, x, 2. *)
Definition mixed : Document :=
  {| ths := [[]];
     tbody := [0; 1; 2; 3]%nat;
     heap := fun n =>
       {| cells :=
            match n with
            | 0%nat => ["3"]
            | 1%nat => ["1"]
            | 2%nat => ["x"]
            | _ => ["2"]
            end;
          classList := [] |} |}.

(** Columns on which the comparator is consistent: every clicked cell of a
    body row is a whole decimal literal, or none converts to a number. *)
Definition numeric_column (d : Document) (colIndex : nat) : Prop :=
  forall n, In n (tbody d) ->
    exists text, nth_error (cells (heap d n)) colIndex = Some text /\
                 whole_decimal (trim text) = true.

Definition text_column (d : Document) (colIndex : nat) : Prop :=
  forall n, In n (tbody d) ->
    exists text, nth_error (cells (heap d n)) colIndex = Some text /\
                 isNaN (trim text) = true.

(** ** The page and its events *)

(** Whether a listener returned. *)
Definition returned (c : completion unit) : bool :=
  match c with Normal _ => true | Throw _ => false end.

(** What lines 47-51 do to the class list of one row. *)
Definition filtered (checked : bool) (c : DOMTokenList) : DOMTokenList :=
  if checked then toggle "hidden" (negb (contains c "error")) c
  else remove ["hidden"] c.

(** The page at DOMContentLoaded: the table, if [document.querySelector]
    finds one, and whether [getElementById] finds the checkbox. *)
Record Page := {
  table : option Document;
  filterCheckbox : bool
}.

(** The listeners the script has registered: the indices of the th
    elements with a click listener, and whether the checkbox has its change
    listener. *)
Record Listeners := {
  clickListeners : list nat;
  changeListener : bool
}.

(** Lines 1-8 and 42: calling a method of a missing element throws, and what
    was registered before stays registered. *)
Definition DOMContentLoaded (p : Page) : completion unit * Listeners :=
  match table p with
  | None => (Throw TypeError, {| clickListeners := []; changeListener := false |})
  | Some d =>
      let clicks := seq 0 (List.length (ths d)) in
      if filterCheckbox p then
        (Normal tt, {| clickListeners := clicks; changeListener := true |})
      else
        (Throw TypeError, {| clickListeners := clicks; changeListener := false |})
  end.

Inductive Event :=
  | Click (index : nat)          (* a click on the [index]-th th *)
  | Change (checked : bool).     (* a change of the checkbox to [checked] *)

(** The event loop hands an event to its listener, if there is one. *)
Definition dispatch (ls : Listeners) (e : Event) (d : Document)
  : completion unit * Document :=
  match e with
  | Click index =>
      if existsb (Nat.eqb index) (clickListeners ls) then click index d
      else (Normal tt, d)
  | Change checked =>
      if changeListener ls then (Normal tt, change checked d)
      else (Normal tt, d)
  end.

(** A run of events: a listener that throws ends its own event only. *)
Fixpoint run (ls : Listeners) (es : list Event) (d : Document)
  : list (completion unit) * Document :=
  match es with
  | [] => ([], d)
  | e :: es' =>
      let (c, d1) := dispatch ls e d in
      let (cs, d2) := run ls es' d1 in
      (c :: cs, d2)
  end.

(** The last change and the last click of a run. *)
Fixpoint last_change (es : list Event) : option bool :=
  match es with
  | [] => None
  | e :: es' =>
      match last_change es', e with
      | Some c, _ => Some c
      | None, Change c => Some c
      | None, Click _ => None
      end
  end.

Fixpoint last_click (es : list Event) : option nat :=
  match es with
  | [] => None
  | e :: es' =>
      match last_click es', e with
      | Some i, _ => Some i
      | None, Click i => Some i
      | None, Change _ => None
      end
  end.

(** ** Properties of the host functions *)

(** *** Array.prototype.sort *)

Section SortFacts.
Context {A : Type}.
Variable comparefn : A -> A -> completion Z.

Lemma insert_perm x l r :
  insert comparefn x l = Normal r -> Permutation (x :: l) r.
Proof.
  revert r; induction l as [|y l IH]; simpl; intros r H.
  - injection H as <-. apply Permutation_refl.
  - destruct (comparefn x y) as [v|e]; simpl in H; [|discriminate].
    destruct (v <=? 0).
    + injection H as <-. apply Permutation_refl.
    + destruct (insert comparefn x l) as [r'|e]; simpl in H; [|discriminate].
      injection H as <-.
      eapply Permutation_trans; [apply perm_swap|].
      apply perm_skip, IH; reflexivity.
Qed.

Lemma sort_perm l r : sort comparefn l = Normal r -> Permutation l r.
Proof.
  revert r; induction l as [|x l IH]; simpl; intros r H.
  - injection H as <-. apply perm_nil.
  - destruct (sort comparefn l) as [s|e]; simpl in H; [|discriminate].
    eapply Permutation_trans; [apply perm_skip, IH; reflexivity|].
    apply insert_perm, H.
Qed.

(** The sort throws only if a call of comparefn on two of its elements
    does. *)
Lemma insert_returns x l :
  (forall y, In y l -> exists v, comparefn x y = Normal v) ->
  exists r, insert comparefn x l = Normal r.
Proof.
  induction l as [|y l IH]; simpl; intros H.
  - eexists; reflexivity.
  - destruct (H y (or_introl eq_refl)) as [v ->]; simpl.
    destruct (v <=? 0); [eexists; reflexivity|].
    destruct IH as [r ->]; [intros; apply H; now right|].
    simpl; eexists; reflexivity.
Qed.

Lemma sort_returns l :
  (forall x y, In x l -> In y l -> exists v, comparefn x y = Normal v) ->
  exists r, sort comparefn l = Normal r.
Proof.
  induction l as [|x l IH]; simpl; intros H.
  - eexists; reflexivity.
  - destruct IH as [s Hs]; [intros; apply H; now right|].
    rewrite Hs; simpl. apply insert_returns.
    intros y Hy. apply H; [now left|right].
    eapply Permutation_in; [apply Permutation_sym, sort_perm, Hs|exact Hy].
Qed.
End SortFacts.

Lemma insert_ext {A} (f g : A -> A -> completion Z) x l :
  (forall a b, f a b = g a b) -> insert f x l = insert g x l.
Proof.
  intros E; induction l as [|y l IH]; simpl; [reflexivity|].
  rewrite E, IH; reflexivity.
Qed.

Lemma sort_ext {A} (f g : A -> A -> completion Z) l :
  (forall a b, f a b = g a b) -> sort f l = sort g l.
Proof.
  intros E; induction l as [|x l IH]; simpl; [reflexivity|].
  rewrite IH. destruct (sort g l); simpl; [apply insert_ext, E|reflexivity].
Qed.

(** With a comparator that never throws and is consistent (transitive, and
    never putting each of two elements after the other), the sort returns a
    permutation of its input in which the comparator puts every element at
    or before all that follow it. *)
Section ConsistentComparator.
Context {A : Type}.
Variable cmp : A -> A -> Z.
Hypothesis cmp_trans :
  forall a b c, cmp a b <= 0 -> cmp b c <= 0 -> cmp a c <= 0.
Hypothesis cmp_total : forall a b, 0 < cmp a b -> cmp b a <= 0.

Lemma insert_sorted x l :
  StronglySorted (fun a b => cmp a b <= 0) l ->
  exists r,
    insert (fun a b => Normal (cmp a b)) x l = Normal r /\
    StronglySorted (fun a b => cmp a b <= 0) r.
Proof.
  induction l as [|y l IH]; intros S; simpl.
  - eexists; split; [reflexivity|]. repeat constructor.
  - inversion S as [|? ? S' F]; subst.
    destruct (Z.leb_spec (cmp x y) 0) as [Hle|Hgt].
    + eexists; split; [reflexivity|]. constructor; [exact S|].
      constructor; [exact Hle|].
      eapply Forall_impl; [|exact F]. intros z Hz. eapply cmp_trans; eassumption.
    + destruct (IH S') as (r & Hr & Sr). rewrite Hr. simpl.
      eexists; split; [reflexivity|]. constructor; [exact Sr|].
      apply (Permutation_Forall (insert_perm _ _ _ _ Hr)).
      constructor; [apply cmp_total, Hgt|exact F].
Qed.

Lemma sort_sorted l :
  exists r,
    sort (fun a b => Normal (cmp a b)) l = Normal r /\
    StronglySorted (fun a b => cmp a b <= 0) r /\
    Permutation l r.
Proof.
  induction l as [|x l IH]; simpl.
  - eexists; repeat split; constructor.
  - destruct IH as (s & Hs & Ss & Ps). rewrite Hs. simpl.
    destruct (insert_sorted x s Ss) as (r & Hr & Sr).
    exists r. repeat split; try assumption.
    eapply Permutation_trans; [apply perm_skip, Ps|].
    apply (insert_perm _ _ _ _ Hr).
Qed.
End ConsistentComparator.

(** *** DOMTokenList *)

Lemma contains_remove tokens l t :
  contains (remove tokens l) t
  = contains l t && negb (existsb (String.eqb t) tokens).
Proof.
  unfold contains, remove. induction l as [|u l IH]; simpl; [reflexivity|].
  destruct (String.eqb_spec t u) as [->|N].
  - destruct (existsb (String.eqb u) tokens); simpl.
    + rewrite IH. apply andb_false_r.
    + rewrite String.eqb_refl. reflexivity.
  - destruct (existsb (String.eqb u) tokens); simpl; [exact IH|].
    destruct (String.eqb_spec t u); [contradiction|exact IH].
Qed.

Lemma contains_app l1 l2 t :
  contains (l1 ++ l2)%list t = contains l1 t || contains l2 t.
Proof. unfold contains. apply existsb_app. Qed.

Lemma contains_add token l t :
  contains (add token l) t = contains l t || String.eqb t token.
Proof.
  unfold add. destruct (contains l token) eqn:E.
  - destruct (String.eqb_spec t token) as [->|]; [|now rewrite orb_false_r].
    rewrite E. reflexivity.
  - rewrite contains_app. unfold contains at 2. simpl.
    now rewrite orb_false_r.
Qed.

Lemma contains_toggle token force l t :
  contains (toggle token force l) t
  = if String.eqb t token then force else contains l t.
Proof.
  unfold toggle. destruct force.
  - rewrite contains_add. destruct (String.eqb_spec t token) as [->|].
    + apply orb_true_r.
    + apply orb_false_r.
  - rewrite contains_remove. simpl. rewrite orb_false_r.
    destruct (String.eqb t token); simpl.
    + apply andb_false_r.
    + apply andb_true_r.
Qed.

(** ** Properties of the numeric conversions *)

(** *** A literal never reads as NaN *)

Lemma shr_1_nonneg mrs : 0 <= shr_m mrs -> 0 <= shr_m (shr_1 mrs).
Proof.
  destruct mrs as [m r s]. destruct m as [|p|p]; simpl; intros H;
    try destruct p; simpl; lia.
Qed.

Lemma iter_pos_invariant {A} (P : A -> Prop) (f : A -> A) :
  (forall x, P x -> P (f x)) -> forall p x, P x -> P (iter_pos f p x).
Proof. intros Hf. induction p; simpl; auto. Qed.

Lemma shr_fexp_nonneg m e l :
  0 <= m -> 0 <= shr_m (fst (shr_fexp prec emax m e l)).
Proof.
  intros H. unfold shr_fexp, shr.
  assert (H0 : 0 <= shr_m (shr_record_of_loc m l)) by (destruct l as [|[]]; exact H).
  destruct (fexp prec emax (Zdigits2 m + e) - e); simpl; try exact H0.
  apply (iter_pos_invariant (fun r => 0 <= shr_m r)); [apply shr_1_nonneg|exact H0].
Qed.

Lemma round_nearest_even_nonneg m l : 0 <= m -> 0 <= round_nearest_even m l.
Proof.
  intros H. destruct l as [|[]]; simpl; try destruct (Z.even m); lia.
Qed.

Lemma binary_round_aux_not_nan s m e l :
  0 <= m -> is_nan (binary_round_aux prec emax s m e l) = false.
Proof.
  intros H. unfold binary_round_aux.
  pose proof (shr_fexp_nonneg m e l H) as H1.
  destruct (shr_fexp prec emax m e l) as [mrs' e']. simpl in H1.
  pose proof (shr_fexp_nonneg _ e' loc_Exact
                (round_nearest_even_nonneg _ (loc_of_shr_record mrs') H1)) as H2.
  destruct (shr_fexp prec emax _ e' loc_Exact) as [mrs'' e'']. simpl in H2.
  destruct (shr_m mrs''); [reflexivity| |lia].
  destruct (e'' <=? emax - prec); reflexivity.
Qed.

Lemma binary_round_not_nan s p e : is_nan (binary_round prec emax s p e) = false.
Proof.
  unfold binary_round. destruct (shl_align _ _ _) as [mz ez].
  apply binary_round_aux_not_nan. lia.
Qed.

Lemma binary_normalize_not_nan m e s :
  is_nan (binary_normalize prec emax m e s) = false.
Proof.
  destruct m; simpl; [reflexivity| |]; apply binary_round_not_nan.
Qed.

Lemma round_decimal_not_nan neg m e : is_nan (round_decimal neg m e) = false.
Proof.
  unfold round_decimal. destruct (0 <=? e) eqn:He.
  - destruct (m * 10 ^ e); try reflexivity. apply binary_round_not_nan.
  - destruct m as [|p|p]; try reflexivity.
    unfold SFdiv_core_binary.
    set (m' := match _ - _ - _ with Z0 => Z.pos p | Z.pos _ => _ | Z.neg _ => 0 end).
    assert (Hm : 0 <= m').
    { unfold m'. destruct (_ - _ - _); try lia. apply Z.shiftl_nonneg. lia. }
    assert (Hd : 0 < 10 ^ (- e)) by (apply Z.pow_pos_nonneg; lia).
    pose proof (Z.div_pos m' (10 ^ (- e)) Hm Hd) as Hq.
    unfold Z.div in Hq.
    destruct (Z.div_eucl m' (10 ^ (- e))) as [q r]. simpl in Hq.
    apply binary_round_aux_not_nan. exact Hq.
Qed.

Lemma literal_value_not_nan l : is_nan (literal_value l) = false.
Proof.
  unfold literal_value. destruct (lit_body l); [reflexivity|].
  apply round_decimal_not_nan.
Qed.

(** isNaN of a string is the failure to match StringNumericLiteral. *)
Lemma isNaN_recognizer s : isNaN s = negb (isStringNumericLiteral s).
Proof.
  unfold isNaN, StringToNumber, isStringNumericLiteral, whole_nondecimal, whole_decimal.
  destruct (is_empty (trim s)); [reflexivity|]. simpl.
  destruct (parse_NonDecimalIntegerLiteral (trim s)); simpl.
  - apply binary_normalize_not_nan.
  - destruct (parse_StrDecimalLiteral (trim s)) as [[l [|c r]]|];
      try reflexivity.
    apply literal_value_not_nan.
Qed.

(** *** trim *)

Lemma trimStart_head s :
  match trimStart s with
  | EmptyString => True
  | String c _ => isWhiteSpace c = false
  end.
Proof.
  induction s as [|c s IH]; simpl; [exact I|].
  destruct (isWhiteSpace c) eqn:E; [exact IH|exact E].
Qed.

Lemma trimEnd_idempotent s : trimEnd (trimEnd s) = trimEnd s.
Proof.
  induction s as [|c s IH]; simpl; [reflexivity|].
  destruct (trimEnd s) as [|c' r] eqn:E.
  - destruct (isWhiteSpace c) eqn:W; simpl; [reflexivity|]. now rewrite W.
  - simpl in *. now rewrite IH.
Qed.

Lemma trimEnd_keeps_head c s :
  isWhiteSpace c = false -> exists r, trimEnd (String c s) = String c r.
Proof.
  intros W. simpl. destruct (trimEnd s); [rewrite W|]; eexists; reflexivity.
Qed.

Lemma trimStart_trim s : trimStart (trim s) = trim s.
Proof.
  unfold trim. pose proof (trimStart_head s) as H.
  destruct (trimStart s) as [|c r]; [reflexivity|].
  destruct (trimEnd_keeps_head c r H) as [r' ->]. simpl. now rewrite H.
Qed.

Lemma trim_idempotent s : trim (trim s) = trim s.
Proof.
  unfold trim at 1. rewrite trimStart_trim. unfold trim.
  apply trimEnd_idempotent.
Qed.

(** *** The numeric grammar does not tell the case of letters apart,
        but for Infinity *)

Ltac by_code_unit c :=
  destruct c as [[] [] [] [] [] [] [] []]; vm_compute; repeat split.

Lemma lowerChar_isWhiteSpace c : isWhiteSpace (lowerChar c) = isWhiteSpace c.
Proof. by_code_unit c. Qed.

Lemma lowerChar_isDecimalDigit c : isDecimalDigit (lowerChar c) = isDecimalDigit c.
Proof. by_code_unit c. Qed.

Lemma lowerChar_isBinaryDigit c : isBinaryDigit (lowerChar c) = isBinaryDigit c.
Proof. by_code_unit c. Qed.

Lemma lowerChar_isOctalDigit c : isOctalDigit (lowerChar c) = isOctalDigit c.
Proof. by_code_unit c. Qed.

Lemma lowerChar_isHexDigit c : isHexDigit (lowerChar c) = isHexDigit c.
Proof. by_code_unit c. Qed.

Lemma lowerChar_isExponentIndicator c :
  isExponentIndicator (lowerChar c) = isExponentIndicator c.
Proof. by_code_unit c. Qed.

Lemma lowerChar_punctuation c :
  ((code (lowerChar c) =? 43) = (code c =? 43) /\
   (code (lowerChar c) =? 45) = (code c =? 45) /\
   (code (lowerChar c) =? 46) = (code c =? 46) /\
   (code (lowerChar c) =? 48) = (code c =? 48))%N.
Proof. by_code_unit c. Qed.

Lemma lowerChar_radix c :
  ((code (lowerChar c) =? 98) || (code (lowerChar c) =? 66)
   = (code c =? 98) || (code c =? 66) /\
   (code (lowerChar c) =? 111) || (code (lowerChar c) =? 79)
   = (code c =? 111) || (code c =? 79) /\
   (code (lowerChar c) =? 120) || (code (lowerChar c) =? 88)
   = (code c =? 120) || (code c =? 88))%N.
Proof. by_code_unit c. Qed.

Lemma lowerChar_not_I c : Ascii.eqb "I" (lowerChar c) = false.
Proof. by_code_unit c. Qed.

Lemma is_empty_toLowerCase s : is_empty (toLowerCase s) = is_empty s.
Proof. destruct s; reflexivity. Qed.

Lemma toLowerCase_empty s : toLowerCase s = EmptyString -> s = EmptyString.
Proof. destruct s; [reflexivity|discriminate]. Qed.

Lemma trimStart_toLowerCase s : trimStart (toLowerCase s) = toLowerCase (trimStart s).
Proof.
  induction s as [|c s IH]; simpl; [reflexivity|].
  rewrite lowerChar_isWhiteSpace. destruct (isWhiteSpace c); [exact IH|reflexivity].
Qed.

Lemma trimEnd_toLowerCase s : trimEnd (toLowerCase s) = toLowerCase (trimEnd s).
Proof.
  induction s as [|c s IH]; simpl; [reflexivity|].
  rewrite IH, lowerChar_isWhiteSpace.
  destruct (trimEnd s); simpl; [destruct (isWhiteSpace c)|]; reflexivity.
Qed.

Lemma trim_toLowerCase s : trim (toLowerCase s) = toLowerCase (trim s).
Proof. unfold trim. now rewrite trimStart_toLowerCase, trimEnd_toLowerCase. Qed.

Lemma span_toLowerCase p s :
  (forall c, p (lowerChar c) = p c) ->
  span p (toLowerCase s)
  = (toLowerCase (fst (span p s)), toLowerCase (snd (span p s))).
Proof.
  intros Hp. induction s as [|c s IH]; simpl; [reflexivity|].
  rewrite Hp. destruct (p c); [|reflexivity].
  rewrite IH. destruct (span p s); reflexivity.
Qed.

Lemma parse_sign_toLowerCase s :
  parse_sign (toLowerCase s)
  = (fst (parse_sign s), toLowerCase (snd (parse_sign s))).
Proof.
  destruct s as [|c s]; simpl; [reflexivity|].
  destruct (lowerChar_punctuation c) as (-> & -> & _).
  destruct (code c =? 43)%N; [reflexivity|].
  destruct (code c =? 45)%N; reflexivity.
Qed.

Lemma parse_fraction_toLowerCase s :
  parse_fraction (toLowerCase s)
  = (toLowerCase (fst (parse_fraction s)), toLowerCase (snd (parse_fraction s))).
Proof.
  destruct s as [|c s]; simpl; [reflexivity|].
  destruct (lowerChar_punctuation c) as (_ & _ & -> & _).
  destruct (code c =? 46)%N; [|reflexivity].
  apply span_toLowerCase, lowerChar_isDecimalDigit.
Qed.

Lemma parse_ExponentPart_toLowerCase s :
  rest_of (parse_ExponentPart (toLowerCase s))
  = option_map toLowerCase (rest_of (parse_ExponentPart s)).
Proof.
  destruct s as [|c s]; simpl; [reflexivity|].
  rewrite lowerChar_isExponentIndicator.
  destruct (isExponentIndicator c); [|reflexivity].
  rewrite parse_sign_toLowerCase. destruct (parse_sign s) as [neg r1]. simpl.
  rewrite (span_toLowerCase _ _ lowerChar_isDecimalDigit).
  destruct (span isDecimalDigit r1) as [ds r2]. simpl.
  rewrite is_empty_toLowerCase. destruct (is_empty ds); reflexivity.
Qed.

Lemma parse_digits_literal_toLowerCase s :
  rest_of (parse_digits_literal (toLowerCase s))
  = option_map toLowerCase (rest_of (parse_digits_literal s)).
Proof.
  unfold parse_digits_literal.
  rewrite (span_toLowerCase _ _ lowerChar_isDecimalDigit).
  destruct (span isDecimalDigit s) as [ip r1]. simpl.
  rewrite parse_fraction_toLowerCase.
  destruct (parse_fraction r1) as [fp r2]. simpl.
  rewrite !is_empty_toLowerCase.
  destruct (is_empty ip && is_empty fp); [reflexivity|].
  pose proof (parse_ExponentPart_toLowerCase r2) as H.
  destruct (parse_ExponentPart (toLowerCase r2)) as [[e r3]|];
    destruct (parse_ExponentPart r2) as [[e' r3']|]; simpl in *; congruence.
Qed.

Lemma strip_Infinity_toLowerCase s : strip_prefix "Infinity" (toLowerCase s) = None.
Proof.
  destruct s as [|c s]; [reflexivity|]. cbn [strip_prefix toLowerCase].
  now rewrite lowerChar_not_I.
Qed.

Lemma Infinity_is_no_digits_literal s r :
  strip_prefix "Infinity" s = Some r -> parse_digits_literal s = None.
Proof.
  destruct s as [|c s]; [discriminate|]. cbn [strip_prefix].
  destruct (Ascii.eqb_spec "I" c) as [<-|]; [|discriminate].
  intros _. reflexivity.
Qed.

Lemma whole_decimal_toLowerCase t :
  whole_decimal (toLowerCase t) = true -> whole_decimal t = true.
Proof.
  unfold whole_decimal, parse_StrDecimalLiteral.
  rewrite parse_sign_toLowerCase. destruct (parse_sign t) as [neg r]. simpl.
  unfold parse_StrUnsignedDecimalLiteral. rewrite strip_Infinity_toLowerCase.
  pose proof (parse_digits_literal_toLowerCase r) as H.
  destruct (strip_prefix "Infinity" r) as [r'|] eqn:E.
  - rewrite (Infinity_is_no_digits_literal _ _ E) in H.
    destruct (parse_digits_literal (toLowerCase r)) as [[u q]|]; simpl in H;
      [discriminate|intros; discriminate].
  - destruct (parse_digits_literal (toLowerCase r)) as [[u q]|];
      destruct (parse_digits_literal r) as [[u' q']|]; simpl in H;
      try discriminate.
    injection H as ->. destruct q'; [reflexivity|intros; discriminate].
Qed.

Lemma parse_radix_digits_toLowerCase radix p ds :
  (forall c, p (lowerChar c) = p c) ->
  parse_radix_digits radix p (toLowerCase ds) = None <->
  parse_radix_digits radix p ds = None.
Proof.
  intros Hp. unfold parse_radix_digits. rewrite (span_toLowerCase _ _ Hp).
  destruct (span p ds) as [d rest]. simpl. rewrite !is_empty_toLowerCase.
  destruct (is_empty d || negb (is_empty rest)); split; intros; (reflexivity || discriminate).
Qed.

Lemma whole_nondecimal_toLowerCase t :
  whole_nondecimal (toLowerCase t) = whole_nondecimal t.
Proof.
  unfold whole_nondecimal, parse_NonDecimalIntegerLiteral.
  destruct t as [|z [|k ds]]; cbn [toLowerCase]; try reflexivity.
  destruct (lowerChar_punctuation z) as (_ & _ & _ & ->).
  destruct (code z =? 48)%N; [|reflexivity].
  destruct (lowerChar_radix k) as (-> & -> & ->).
  assert (G : forall radix p, (forall c, p (lowerChar c) = p c) ->
    match parse_radix_digits radix p (toLowerCase ds) with Some _ => true | None => false end
    = match parse_radix_digits radix p ds with Some _ => true | None => false end).
  { intros radix p Hp.
    pose proof (parse_radix_digits_toLowerCase radix p ds Hp) as [H1 H2].
    destruct (parse_radix_digits radix p (toLowerCase ds));
      destruct (parse_radix_digits radix p ds); try reflexivity.
    - discriminate H2; reflexivity.
    - discriminate H1; reflexivity. }
  destruct (_ || _)%N; [apply G, lowerChar_isBinaryDigit|].
  destruct (_ || _)%N; [apply G, lowerChar_isOctalDigit|].
  destruct (_ || _)%N; [apply G, lowerChar_isHexDigit|reflexivity].
Qed.

(** Lower-casing a text that does not convert to a number gives a text
    that does not convert to a number. *)
Lemma isNaN_toLowerCase s : isNaN s = true -> isNaN (toLowerCase s) = true.
Proof.
  rewrite !isNaN_recognizer. unfold isStringNumericLiteral.
  rewrite trim_toLowerCase, is_empty_toLowerCase, whole_nondecimal_toLowerCase.
  destruct (is_empty (trim s)); [trivial|].
  destruct (whole_nondecimal (trim s)); [trivial|]. simpl.
  destruct (whole_decimal (toLowerCase (trim s))) eqn:E; [|reflexivity].
  now rewrite (whole_decimal_toLowerCase _ E).
Qed.

(** *** The sort key *)

Lemma code_eqb_true c n : (code c =? n)%N = true -> c = ascii_of_N n.
Proof.
  intros H. apply N.eqb_eq in H. subst n. unfold code.
  symmetry. apply ascii_N_embedding.
Qed.

(** A 0b, 0o or 0x literal is not a whole decimal literal: the decimal
    reading stops after the 0. *)
Lemma nondecimal_is_not_decimal t n :
  parse_NonDecimalIntegerLiteral t = Some n -> whole_decimal t = false.
Proof.
  unfold parse_NonDecimalIntegerLiteral, whole_decimal.
  destruct t as [|z [|k ds]]; try discriminate.
  destruct (code z =? 48)%N eqn:Ez; [|discriminate].
  apply code_eqb_true in Ez. subst z.
  destruct ((code k =? 98) || (code k =? 66))%N eqn:Eb.
  { intros _. apply orb_true_iff in Eb as [E|E];
      apply code_eqb_true in E; subst k; reflexivity. }
  destruct ((code k =? 111) || (code k =? 79))%N eqn:Eo.
  { intros _. apply orb_true_iff in Eo as [E|E];
      apply code_eqb_true in E; subst k; reflexivity. }
  destruct ((code k =? 120) || (code k =? 88))%N eqn:Ex; [|discriminate].
  intros _. apply orb_true_iff in Ex as [E|E];
    apply code_eqb_true in E; subst k; reflexivity.
Qed.

Lemma whole_decimal_nonempty t : whole_decimal t = true -> is_empty t = false.
Proof. destruct t; [discriminate|reflexivity]. Qed.

(** The key of a trimmed text that is a whole decimal literal is the value
    of the literal. *)
Lemma sortKey_decimal s l :
  parse_StrDecimalLiteral (trim s) = Some (l, EmptyString) ->
  sortKey (trim s) = VNum (literal_value l).
Proof.
  intros H.
  assert (W : whole_decimal (trim s) = true) by (unfold whole_decimal; now rewrite H).
  unfold sortKey. rewrite isNaN_recognizer. unfold isStringNumericLiteral.
  rewrite trim_idempotent, W, orb_true_r. simpl.
  unfold parseFloat. rewrite trimStart_trim, H. reflexivity.
Qed.

(** On a whole decimal literal the two conversions agree. *)
Lemma decimal_conversions_agree s l :
  parse_StrDecimalLiteral (trim s) = Some (l, EmptyString) ->
  StringToNumber (trim s) = literal_value l /\
  parseFloat (trim s) = literal_value l.
Proof.
  intros H.
  assert (W : whole_decimal (trim s) = true) by (unfold whole_decimal; now rewrite H).
  split.
  - unfold StringToNumber. rewrite trim_idempotent.
    rewrite (whole_decimal_nonempty _ W).
    destruct (parse_NonDecimalIntegerLiteral (trim s)) as [n|] eqn:E.
    + apply nondecimal_is_not_decimal in E. congruence.
    + now rewrite H.
  - unfold parseFloat. now rewrite trimStart_trim, H.
Qed.

(** The key of a text that does not convert to a number is the text in
    lower case. *)
Lemma sortKey_text t :
  StringToNumber t = NaN -> sortKey t = VStr (toLowerCase t).
Proof. intros H. unfold sortKey, isNaN. now rewrite H. Qed.

Lemma key_of_sortKey s k : key_of (trim s) k -> sortKey (trim s) = k.
Proof.
  intros H. inversion H; subst.
  - now apply sortKey_decimal.
  - now apply sortKey_text.
Qed.

Lemma SFcompare_nan_r x : SFcompare x S754_nan = None.
Proof. destruct x; reflexivity. Qed.

Lemma is_nan_true x : is_nan x = true -> x = NaN.
Proof. destruct x; try discriminate. reflexivity. Qed.

(** The texts where isNaN and parseFloat disagree: the empty text converts
    to 0 but parseFloat reads NaN from it, and of a 0x literal parseFloat
    reads the 0 only. *)
Example sortKey_empty_text : sortKey "" = VNum NaN.
Proof. reflexivity. Qed.

Example sortKey_hex_literal : sortKey "0x1F" = VNum (S754_zero false).
Proof. reflexivity. Qed.

(** ** Properties of the document operations *)

Lemma filter_all_in (l b : list node) :
  incl b l -> filter (fun k => negb (existsb (Nat.eqb k) l)) b = [].
Proof.
  induction b as [|x b IH]; simpl; intros H; [reflexivity|].
  assert (E : existsb (Nat.eqb x) l = true).
  { apply existsb_exists. exists x. split; [apply H; now left|apply Nat.eqb_refl]. }
  rewrite E. simpl. apply IH. intros y Hy. apply H. now right.
Qed.

Lemma filter_not_in (l : list node) x :
  ~ In x l -> existsb (Nat.eqb x) l = false.
Proof.
  intros N. destruct (existsb (Nat.eqb x) l) eqn:E; [|reflexivity].
  apply existsb_exists in E as (y & Hy & Hxy).
  apply Nat.eqb_eq in Hxy. subst. contradiction.
Qed.

Lemma filter_twice x (l b : list node) :
  filter (fun k => negb (existsb (Nat.eqb k) l))
    (filter (fun k => negb (Nat.eqb k x)) b)
  = filter (fun k => negb (existsb (Nat.eqb k) (x :: l))) b.
Proof.
  induction b as [|y b IH]; simpl; [reflexivity|].
  destruct (Nat.eqb y x); simpl; [exact IH|].
  destruct (existsb (Nat.eqb y) l); simpl; [exact IH|].
  now rewrite IH.
Qed.

Lemma fold_appendChild_heap l d : heap (fold_left appendChild l d) = heap d.
Proof. revert d; induction l as [|x l IH]; intros d; simpl; [|rewrite IH]; reflexivity. Qed.

Lemma fold_appendChild_ths l d : ths (fold_left appendChild l d) = ths d.
Proof. revert d; induction l as [|x l IH]; intros d; simpl; [|rewrite IH]; reflexivity. Qed.

(** Appending distinct rows one after the other leaves them at the end of
    the body, in the order they were appended. *)
Lemma fold_appendChild_tbody l d :
  NoDup l ->
  tbody (fold_left appendChild l d)
  = (filter (fun k => negb (existsb (Nat.eqb k) l)) (tbody d) ++ l)%list.
Proof.
  revert d; induction l as [|x l IH]; intros d ND; simpl.
  - rewrite app_nil_r. induction (tbody d) as [|y b IHb]; simpl; [|rewrite <- IHb]; reflexivity.
  - inversion ND as [|? ? Hx ND']; subst.
    rewrite IH by assumption. simpl.
    rewrite filter_app, filter_twice. simpl.
    rewrite (filter_not_in l x Hx). simpl.
    rewrite <- app_assoc. reflexivity.
Qed.

Lemma fold_appendChild_sorted l d :
  NoDup (tbody d) -> Permutation (tbody d) l ->
  tbody (fold_left appendChild l d) = l.
Proof.
  intros ND P. rewrite fold_appendChild_tbody.
  - rewrite filter_all_in; [reflexivity|].
    intros y Hy. eapply Permutation_in; eassumption.
  - eapply Permutation_NoDup; eassumption.
Qed.

Lemma fold_appendChild_In l d n :
  In n (tbody (fold_left appendChild l d)) <-> In n l \/ In n (tbody d).
Proof.
  revert d; induction l as [|x l IH]; intros d; simpl.
  - tauto.
  - rewrite IH. simpl. rewrite in_app_iff, filter_In. simpl.
    destruct (Nat.eqb_spec n x) as [->|N]; simpl.
    + tauto.
    + intuition congruence.
Qed.

Lemma nth_update_nth_eq {A} h (f : A -> A) l dflt :
  (h < List.length l)%nat -> nth h (update_nth h f l) dflt = f (nth h l dflt).
Proof.
  revert h; induction l as [|x l IH]; intros [|h] H; simpl in *; try lia.
  - reflexivity.
  - apply IH. lia.
Qed.

Lemma nth_update_nth_neq {A} k h (f : A -> A) l dflt :
  k <> h -> nth k (update_nth h f l) dflt = nth k l dflt.
Proof.
  revert k h; induction l as [|x l IH]; intros [|k] [|h] H; simpl; try reflexivity.
  - contradiction.
  - apply IH. congruence.
Qed.

Lemma nth_cleared k (l : list DOMTokenList) tokens :
  nth k (map (remove tokens) l) [] = remove tokens (nth k l []).
Proof. exact (map_nth (remove tokens) l [] k). Qed.

(** The comparator returns on rows that have the cell. *)
Lemma comparator_returns d direction colIndex a b :
  (colIndex < List.length (cells (heap d a)))%nat ->
  (colIndex < List.length (cells (heap d b)))%nat ->
  exists v, comparator d direction colIndex a b = Normal v.
Proof.
  intros Ha Hb. unfold comparator, cellText.
  destruct (nth_error (cells (heap d a)) colIndex) eqn:Ea;
    [|apply nth_error_None in Ea; lia].
  destruct (nth_error (cells (heap d b)) colIndex) eqn:Eb;
    [|apply nth_error_None in Eb; lia].
  simpl. eexists; reflexivity.
Qed.

Lemma sort_rows_returns d direction colIndex :
  has_column d colIndex ->
  exists sorted, sort (comparator d direction colIndex) (tbody d) = Normal sorted.
Proof.
  intros H. apply sort_returns. intros x y Hx Hy.
  apply comparator_returns; apply H; assumption.
Qed.

(** What [sortTable] leaves behind, by the completion of the sort. *)
Lemma sortTable_unfold colIndex header d :
  let isAscending := sortedAsc d header in
  let direction := if isAscending then -1 else 1 in
  let cleared := map (remove ["sorted-asc"; "sorted-desc"]) (ths d) in
  match sort (comparator d direction colIndex) (tbody d) with
  | Throw e => sortTable colIndex header d = (Throw e, set_ths d cleared)
  | Normal sorted =>
      exists d',
        sortTable colIndex header d = (Normal tt, d') /\
        heap d' = heap d /\
        tbody d' = tbody (fold_left appendChild sorted d) /\
        ths d' = update_nth header
                   (add (if isAscending then "sorted-desc" else "sorted-asc"))
                   cleared
  end.
Proof.
  intros isAscending direction cleared. unfold sortTable.
  fold (sortedAsc d header). fold isAscending. fold direction. fold cleared.
  change (comparator (set_ths d cleared) direction colIndex)
    with (comparator d direction colIndex).
  destruct (sort (comparator d direction colIndex) (tbody d)) as [sorted|e];
    [|reflexivity].
  eexists; split; [reflexivity|]. simpl.
  rewrite fold_appendChild_heap, fold_appendChild_ths. simpl.
  repeat split.
  assert (G : forall l d1 d2, tbody d1 = tbody d2 ->
            tbody (fold_left appendChild l d1) = tbody (fold_left appendChild l d2)).
  { induction l as [|x l IH]; intros d1 d2 E; simpl; [exact E|].
    apply IH. simpl. now rewrite E. }
  apply G. reflexivity.
Qed.

(** *** The filter *)

Lemma filterRow_heap checked d row n :
  heap (filterRow checked d row) n
  = if Nat.eqb n row then
      {| cells := cells (heap d row);
         classList :=
           if checked then
             toggle "hidden" (negb (error d row)) (classList (heap d row))
           else remove ["hidden"] (classList (heap d row)) |}
    else heap d n.
Proof.
  unfold filterRow, error. destruct checked; simpl; destruct (Nat.eqb n row); reflexivity.
Qed.

Lemma filterRow_cells checked d row n :
  cells (heap (filterRow checked d row) n) = cells (heap d n).
Proof.
  rewrite filterRow_heap. destruct (Nat.eqb_spec n row) as [->|]; reflexivity.
Qed.

Lemma filterRow_error checked d row n :
  error (filterRow checked d row) n = error d n.
Proof.
  unfold error at 1. rewrite filterRow_heap.
  destruct (Nat.eqb_spec n row) as [->|]; [|reflexivity].
  destruct checked; simpl.
  - rewrite contains_toggle. reflexivity.
  - rewrite contains_remove. simpl. apply andb_true_r.
Qed.

Lemma filterRow_hidden checked d row :
  hidden (filterRow checked d row) row
  = if checked then negb (error d row) else false.
Proof.
  unfold hidden. rewrite filterRow_heap, Nat.eqb_refl.
  destruct checked; simpl.
  - rewrite contains_toggle. reflexivity.
  - rewrite contains_remove. simpl. apply andb_false_r.
Qed.

Lemma fold_filterRow_frame checked l d :
  let d' := fold_left (filterRow checked) l d in
  tbody d' = tbody d /\ ths d' = ths d /\
  (forall n, cells (heap d' n) = cells (heap d n)) /\
  (forall n, error d' n = error d n) /\
  (forall n, ~ In n l -> heap d' n = heap d n).
Proof.
  revert d; induction l as [|x l IH]; intros d; simpl.
  - repeat split.
  - destruct (IH (filterRow checked d x)) as (Hb & Hh & Hc & He & Hn).
    repeat split.
    + rewrite Hb. unfold filterRow. destruct checked; reflexivity.
    + rewrite Hh. unfold filterRow. destruct checked; reflexivity.
    + intros n. rewrite Hc. apply filterRow_cells.
    + intros n. rewrite He. apply filterRow_error.
    + intros n N. rewrite Hn by tauto. rewrite filterRow_heap.
      destruct (Nat.eqb_spec n x) as [->|]; [tauto|reflexivity].
Qed.

Lemma fold_filterRow_hidden checked l d n :
  In n l ->
  hidden (fold_left (filterRow checked) l d) n
  = if checked then negb (error d n) else false.
Proof.
  revert d; induction l as [|x l IH]; intros d H; simpl in *; [contradiction|].
  destruct (in_dec Nat.eq_dec n l) as [I|N].
  - rewrite IH by assumption. now rewrite filterRow_error.
  - destruct H as [->|H]; [|contradiction].
    destruct (fold_filterRow_frame checked l (filterRow checked d n))
      as (_ & _ & _ & _ & Hn).
    unfold hidden. rewrite Hn by assumption. apply filterRow_hidden.
Qed.

Lemma change_tbody checked d : tbody (change checked d) = tbody d.
Proof. apply (fold_filterRow_frame checked (tbody d) d). Qed.

Lemma changes_tbody prior d :
  tbody (fold_left (fun d c => change c d) prior d) = tbody d.
Proof.
  revert d; induction prior as [|c l IH]; intros d; simpl; [reflexivity|].
  rewrite IH. apply change_tbody.
Qed.

(** *** The listeners on the sample page *)

(** With direction -1 the comparator gives the opposite signal. *)
Lemma signal_opp direction aValue bValue :
  signal (- direction) aValue bValue = - signal direction aValue bValue.
Proof.
  unfold signal. destruct (gt aValue bValue); [reflexivity|].
  destruct (lt aValue bValue); reflexivity.
Qed.

(** A first click on the first header sorts its column ascending, a second
    click on the same header sorts it descending. *)
Example two_clicks_on_sample :
  let d1 := snd (click 0 sample) in
  let d2 := snd (click 0 d1) in
  tbody d1 = [2; 1; 0]%nat /\ ths d1 = [["sorted-asc"]; []] /\
  tbody d2 = [0; 1; 2]%nat /\ ths d2 = [["sorted-desc"]; []].
Proof. vm_compute. repeat split. Qed.

(** Checking the box hides the rows without the error marker and shows the
    row that has it; unchecking it shows them all. *)
Example change_on_sample :
  map (fun n => classList (heap (change true sample) n)) (tbody (change true sample))
  = [["error"]; ["hidden"]; ["hidden"]] /\
  map (fun n => classList (heap (change false sample) n)) (tbody (change false sample))
  = [["error"]; []; []].
Proof. vm_compute. split; reflexivity. Qed.

(** The numeric order of 10, 9, 2 does not hang on the sorting method: it is
    the only arrangement of the three rows in which no row comes after one
    that the ascending comparator puts strictly behind it. *)
Lemma numeric_order_forced colIndex d r1 r2 r3 out :
  NoDup [r1; r2; r3] ->
  cellText d colIndex r1 = Normal "10" ->
  cellText d colIndex r2 = Normal "9" ->
  cellText d colIndex r3 = Normal "2" ->
  Permutation [r1; r2; r3] out ->
  (forall i j x y, (i < j)%nat ->
     nth_error out i = Some x -> nth_error out j = Some y ->
     comparator d 1 colIndex y x <> Normal (-1)) ->
  out = [r3; r2; r1].
Proof.
  intros ND H1 H2 H3 P O.
  assert (C21 : comparator d 1 colIndex r2 r1 = Normal (-1))
    by (unfold comparator; rewrite H1, H2; reflexivity).
  assert (C31 : comparator d 1 colIndex r3 r1 = Normal (-1))
    by (unfold comparator; rewrite H1, H3; reflexivity).
  assert (C32 : comparator d 1 colIndex r3 r2 = Normal (-1))
    by (unfold comparator; rewrite H2, H3; reflexivity).
  pose proof (Permutation_length P) as L.
  pose proof (Permutation_NoDup P ND) as ND'.
  destruct out as [|a [|b [|c [|? ?]]]]; try discriminate L.
  assert (Ia : In a [r1; r2; r3])
    by (apply (Permutation_in _ (Permutation_sym P)); simpl; auto).
  assert (Ib : In b [r1; r2; r3])
    by (apply (Permutation_in _ (Permutation_sym P)); simpl; auto).
  assert (Ic : In c [r1; r2; r3])
    by (apply (Permutation_in _ (Permutation_sym P)); simpl; auto).
  pose proof (O 0%nat 1%nat a b ltac:(lia) eq_refl eq_refl) as Oab.
  pose proof (O 0%nat 2%nat a c ltac:(lia) eq_refl eq_refl) as Oac.
  pose proof (O 1%nat 2%nat b c ltac:(lia) eq_refl eq_refl) as Obc.
  inversion ND' as [|? ? Na ND'']; subst.
  inversion ND'' as [|? ? Nb _]; subst.
  simpl in Ia, Ib, Ic, Na, Nb.
  destruct Ia as [<-|[<-|[<-|[]]]]; destruct Ib as [<-|[<-|[<-|[]]]];
    destruct Ic as [<-|[<-|[<-|[]]]];
    try reflexivity; try (exfalso; tauto); try contradiction.
Qed.

(** ** The claims *)

(** C1, as the code has it.  For two rows that have the clicked cell, when
    the trimmed text of each is either a whole decimal literal (Infinity
    included, so not always finite), whose value is then the key, or does not
    convert to a number, the lower-cased text then being the key, the
    comparator returns [direction] if A's key is greater than B's,
    [- direction] if it is less, and 0 otherwise. *)
Theorem C1_comparator_keys d direction colIndex a b textA textB keyA keyB :
  nth_error (cells (heap d a)) colIndex = Some textA ->
  nth_error (cells (heap d b)) colIndex = Some textB ->
  key_of (trim textA) keyA ->
  key_of (trim textB) keyB ->
  comparator d direction colIndex a b
  = Normal (if gt keyA keyB then direction
            else if lt keyA keyB then - direction
            else 0).
Proof.
  intros Ha Hb Ka Kb. unfold comparator, cellText. rewrite Ha, Hb. simpl.
  rewrite (key_of_sortKey _ _ Ka), (key_of_sortKey _ _ Kb). reflexivity.
Qed.

Lemma C1_comparator_keys_witness :
  key_of (trim "Infinity") (VNum (S754_infinity false)) /\
  key_of (trim "alpha") (VStr "alpha") /\
  comparator sample 1 1 2%nat 1%nat = Normal 0 /\
  comparator sample 1 0 0%nat 1%nat = Normal 1.
Proof.
  assert (K1 : key_of (trim "Infinity") (VNum (S754_infinity false))).
  { exact (key_number "Infinity" {| lit_neg := false; lit_body := LitInfinity |} eq_refl). }
  assert (K2 : key_of (trim "alpha") (VStr "alpha")).
  { exact (key_text "alpha" eq_refl). }
  split; [exact K1|]. split; [exact K2|]. split.
  - exact (C1_comparator_keys sample 1 1 2%nat 1%nat "Infinity" "alpha" _ _
             eq_refl eq_refl K1 K2).
  - exact (C1_comparator_keys sample 1 0 0%nat 1%nat "10" " 9 " _ _
             eq_refl eq_refl
             (key_number "10" {| lit_neg := false; lit_body := LitDecimal 10 0 |} eq_refl)
             (key_number "9" {| lit_neg := false; lit_body := LitDecimal 9 0 |} eq_refl)).
Defined.

(** C1 as it is worded fails on the text Infinity: it is not a finite number
    under either conversion, yet the code takes the number, not the
    lower-cased text, as the key; against the text alpha the comparator
    returns 0 where the keys of the wording give [direction]. *)
Lemma C1_counterexample_Infinity :
  is_finite (parseFloat "Infinity") = false /\
  is_finite (StringToNumber "Infinity") = false /\
  sortKey "Infinity" = VNum (S754_infinity false) /\
  sortKey "Infinity" <> spec_sortKey "Infinity" /\
  cellText sample 1 2%nat = Normal "Infinity" /\
  cellText sample 1 1%nat = Normal "alpha" /\
  comparator sample 1 1 2%nat 1%nat = Normal 0 /\
  signal 1 (spec_sortKey "Infinity") (spec_sortKey "alpha") = 1.
Proof. vm_compute. repeat split; discriminate. Qed.

(** C2.  On a table whose rows have a cell in the clicked column, a click on
    a header returns; the rows are sorted descending (direction -1) when the
    header carried the ascending marker and ascending (direction 1) in every
    other state; afterwards the header carries the descending marker exactly
    when it had carried the ascending one, and the ascending marker
    otherwise, so it never goes back to carrying neither. *)
Theorem C2_direction_toggle colIndex header d :
  (header < List.length (ths d))%nat ->
  NoDup (tbody d) ->
  has_column d colIndex ->
  exists d',
    sortTable colIndex header d = (Normal tt, d') /\
    sort (comparator d (if sortedAsc d header then -1 else 1) colIndex) (tbody d)
      = Normal (tbody d') /\
    sortedDesc d' header = sortedAsc d header /\
    sortedAsc d' header = negb (sortedAsc d header) /\
    sortedAsc d' header || sortedDesc d' header = true.
Proof.
  intros Hh ND Hc.
  pose proof (sortTable_unfold colIndex header d) as U. simpl in U.
  destruct (sort_rows_returns d (if sortedAsc d header then -1 else 1) colIndex Hc)
    as [sorted Hs].
  rewrite Hs in U. destruct U as (d' & E & _ & Hb & Ht).
  exists d'. split; [exact E|].
  split.
  { rewrite Hb, fold_appendChild_sorted; auto. apply (sort_perm _ _ _ Hs). }
  assert (D : sortedDesc d' header = sortedAsc d header).
  { unfold sortedDesc, th_classList. rewrite Ht.
    rewrite nth_update_nth_eq by (rewrite length_map; exact Hh).
    rewrite nth_cleared, contains_add, contains_remove. simpl.
    rewrite andb_false_r. now destruct (sortedAsc d header). }
  assert (A : sortedAsc d' header = negb (sortedAsc d header)).
  { unfold sortedAsc at 1, th_classList. rewrite Ht.
    rewrite nth_update_nth_eq by (rewrite length_map; exact Hh).
    rewrite nth_cleared, contains_add, contains_remove. simpl.
    rewrite andb_false_r. now destruct (sortedAsc d header). }
  rewrite D, A. repeat split. now destruct (sortedAsc d header).
Qed.

Lemma C2_direction_toggle_witness :
  sortedAsc sample 1 = true /\
  exists d',
    sortTable 1 1 sample = (Normal tt, d') /\
    sort (comparator sample (-1) 1) (tbody sample) = Normal (tbody d') /\
    sortedDesc d' 1 = true /\
    sortedAsc d' 1 = false /\
    sortedAsc d' 1 || sortedDesc d' 1 = true.
Proof.
  split; [reflexivity|].
  apply (C2_direction_toggle 1 1 sample).
  - simpl. lia.
  - simpl. repeat constructor; simpl; lia.
  - intros n [<-|[<-|[<-|[]]]]; simpl; lia.
Defined.

(** C3.  After a click that returns, the clicked header carries a sort
    marker and no other header does. *)
Theorem C3_single_marker colIndex header d :
  (header < List.length (ths d))%nat ->
  has_column d colIndex ->
  exists d',
    sortTable colIndex header d = (Normal tt, d') /\
    forall k, sortedAsc d' k || sortedDesc d' k = true <-> k = header.
Proof.
  intros Hh Hc.
  pose proof (sortTable_unfold colIndex header d) as U. simpl in U.
  destruct (sort_rows_returns d (if sortedAsc d header then -1 else 1) colIndex Hc)
    as [sorted Hs].
  rewrite Hs in U. destruct U as (d' & E & _ & _ & Ht).
  exists d'. split; [exact E|]. intros k.
  unfold sortedAsc at 1, sortedDesc, th_classList. rewrite Ht.
  destruct (Nat.eq_dec k header) as [->|N].
  - rewrite nth_update_nth_eq by (rewrite length_map; exact Hh).
    rewrite !contains_add. split; [reflexivity|intros _].
    destruct (sortedAsc d header); simpl; now rewrite ?orb_true_r.
  - rewrite nth_update_nth_neq by assumption.
    rewrite nth_cleared, !contains_remove. simpl.
    rewrite !andb_false_r. simpl. split; [discriminate|contradiction].
Qed.

Lemma C3_single_marker_witness :
  exists d',
    sortTable 0 1 sample = (Normal tt, d') /\
    forall k, sortedAsc d' k || sortedDesc d' k = true <-> k = 1%nat.
Proof.
  apply (C3_single_marker 0 1 sample).
  - simpl. lia.
  - intros n [<-|[<-|[<-|[]]]]; simpl; lia.
Defined.

(** C4.  The change listener run with the box checked keeps the body as it
    was, and afterwards every row of that body carries the hidden marker if
    and only if it does not carry the error marker (which the listener
    leaves as it was): a row without the error marker is hidden, a row with
    it is not. *)
Theorem C4_filter_on d :
  tbody (change true d) = tbody d /\
  Forall (fun n =>
            hidden (change true d) n = negb (error (change true d) n) /\
            error (change true d) n = error d n /\
            (error d n = false -> hidden (change true d) n = true) /\
            (error d n = true -> hidden (change true d) n = false))
         (tbody d).
Proof.
  split; [apply change_tbody|].
  apply Forall_forall. intros n Hn.
  destruct (fold_filterRow_frame true (tbody d) d) as (_ & _ & _ & He & _).
  pose proof (fold_filterRow_hidden true (tbody d) d n Hn) as Hh.
  fold (change true d) in He, Hh.
  rewrite He, Hh. repeat split; now intros ->.
Qed.

(** C5.  After the change listener has run with the box unchecked, whatever
    changes of the box came before and whatever the rows' error markers, no
    body row carries the hidden marker. *)
Theorem C5_filter_off d (prior : list bool) :
  let d' := change false (fold_left (fun d c => change c d) prior d) in
  Forall (fun n => hidden d' n = false) (tbody d').
Proof.
  intros d'. apply Forall_forall. intros n Hn. unfold d' in *.
  rewrite change_tbody in Hn.
  apply (fold_filterRow_hidden false _ _ n Hn).
Qed.

(** C6.  Three rows whose cells in the clicked column read 10, 9 and 2, in
    that order, sorted ascending, come out in the order of the numbers 2, 9,
    10; the order of the texts as strings would be 10, 2, 9. *)
Theorem C6_numeric_order colIndex header d r1 r2 r3 :
  tbody d = [r1; r2; r3] ->
  NoDup [r1; r2; r3] ->
  cellText d colIndex r1 = Normal "10" ->
  cellText d colIndex r2 = Normal "9" ->
  cellText d colIndex r3 = Normal "2" ->
  sortedAsc d header = false ->
  fst (sortTable colIndex header d) = Normal tt /\
  tbody (snd (sortTable colIndex header d)) = [r3; r2; r1] /\
  tbody (snd (sortTable colIndex header d)) <> [r1; r3; r2] /\
  string_lt "10" "2" = true /\ string_lt "2" "9" = true.
Proof.
  intros Hb ND H1 H2 H3 Hh.
  assert (C23 : comparator d 1 colIndex r2 r3 = Normal 1)
    by (unfold comparator; rewrite H2, H3; reflexivity).
  assert (C13 : comparator d 1 colIndex r1 r3 = Normal 1)
    by (unfold comparator; rewrite H1, H3; reflexivity).
  assert (C12 : comparator d 1 colIndex r1 r2 = Normal 1)
    by (unfold comparator; rewrite H1, H2; reflexivity).
  assert (S : sort (comparator d 1 colIndex) [r1; r2; r3] = Normal [r3; r2; r1]).
  { cbn [sort insert bind]. rewrite C23. cbn [bind].
    change (1 <=? 0) with false. cbn [bind insert].
    rewrite C13. cbn [bind]. change (1 <=? 0) with false. cbn [bind insert].
    rewrite C12. reflexivity. }
  pose proof (sortTable_unfold colIndex header d) as U. simpl in U.
  rewrite Hh, Hb, S in U. destruct U as (d' & -> & _ & Ht & _). simpl.
  rewrite Ht, fold_appendChild_sorted.
  - repeat split. intros E. injection E as E1 E2.
    inversion ND as [|? ? N1 _]. apply N1. subst. simpl. auto.
  - now rewrite Hb.
  - rewrite Hb. apply (sort_perm _ _ _ S).
Qed.

Lemma C6_numeric_order_witness :
  fst (sortTable 0 0 sample) = Normal tt /\
  tbody (snd (sortTable 0 0 sample)) = [2; 1; 0]%nat /\
  tbody (snd (sortTable 0 0 sample)) <> [0; 2; 1]%nat /\
  string_lt "10" "2" = true /\ string_lt "2" "9" = true.
Proof.
  apply (C6_numeric_order 0 0 sample 0 1 2); try reflexivity.
  repeat constructor; simpl; lia.
Defined.

(** C7.  A sort, whether it returns or throws, leaves the class list of
    every row as it was, so the body rows that are hidden are the same
    before and after; a change of the filter leaves the order of the body
    rows as it was. *)
Theorem C7_filter_sort_independence colIndex header checked d :
  let ds := snd (sortTable colIndex header d) in
  (forall n, hidden ds n = hidden d n) /\
  (forall n, In n (tbody ds) /\ hidden ds n = true
             <-> In n (tbody d) /\ hidden d n = true) /\
  tbody (change checked d) = tbody d.
Proof.
  intros ds.
  assert (H : heap ds = heap d /\ forall n, In n (tbody ds) <-> In n (tbody d)).
  { unfold ds. pose proof (sortTable_unfold colIndex header d) as U. simpl in U.
    destruct (sort _ (tbody d)) as [sorted|e] eqn:Hs.
    - destruct U as (d' & -> & Hh & Hb & _). simpl. split; [exact Hh|].
      intros n. rewrite Hb, fold_appendChild_In.
      pose proof (sort_perm _ _ _ Hs) as P. split.
      + intros [I|I]; [|exact I].
        eapply Permutation_in; [apply Permutation_sym, P|exact I].
      + intros I. now right.
    - rewrite U. simpl. split; [reflexivity|tauto]. }
  destruct H as [Hh Hb]. unfold hidden. rewrite Hh.
  split; [reflexivity|]. split; [|apply change_tbody].
  intros n. rewrite Hb. reflexivity.
Qed.

(** C8.  Neither listener adds or removes a row: after a sort, returned or
    thrown, the body holds a permutation of the rows it held, each still
    once; after a change of the filter it holds the same rows in the same
    places; and every row keeps its cells in both. *)
Theorem C8_rows_preserved colIndex header checked d :
  NoDup (tbody d) ->
  let ds := snd (sortTable colIndex header d) in
  let dc := change checked d in
  Permutation (tbody d) (tbody ds) /\ NoDup (tbody ds) /\
  (forall n, cells (heap ds n) = cells (heap d n)) /\
  tbody dc = tbody d /\
  (forall n, cells (heap dc n) = cells (heap d n)).
Proof.
  intros ND ds dc.
  assert (H : Permutation (tbody d) (tbody ds) /\ heap ds = heap d).
  { unfold ds. pose proof (sortTable_unfold colIndex header d) as U. simpl in U.
    destruct (sort _ (tbody d)) as [sorted|e] eqn:Hs.
    - destruct U as (d' & -> & Hh & Hb & _). simpl. split; [|exact Hh].
      pose proof (sort_perm _ _ _ Hs) as P.
      rewrite Hb, fold_appendChild_sorted; assumption.
    - rewrite U. simpl. split; [apply Permutation_refl|reflexivity]. }
  destruct H as [P Hh].
  destruct (fold_filterRow_frame checked (tbody d) d) as (Hb & _ & Hc & _).
  repeat split.
  - exact P.
  - eapply Permutation_NoDup; eassumption.
  - intros n. now rewrite Hh.
  - exact Hb.
  - exact Hc.
Qed.

Lemma C8_rows_preserved_witness :
  NoDup (tbody sample) /\
  Permutation (tbody sample) (tbody (snd (sortTable 0 0 sample))) /\
  NoDup (tbody (snd (sortTable 0 0 sample))) /\
  (forall n, cells (heap (snd (sortTable 0 0 sample)) n) = cells (heap sample n)) /\
  tbody (change true sample) = tbody sample /\
  (forall n, cells (heap (change true sample) n) = cells (heap sample n)).
Proof.
  assert (ND : NoDup (tbody sample)) by (simpl; repeat constructor; simpl; lia).
  split; [exact ND|].
  exact (C8_rows_preserved 0 0 true sample ND).
Defined.

(** C9.  On a page where every body row has one cell per th, the click
    listener of any th returns: reading the cell of the clicked column
    never throws. *)
Theorem C9_click_returns index d :
  (index < List.length (ths d))%nat ->
  well_formed d ->
  fst (click index d) = Normal tt.
Proof.
  intros Hi W. unfold click.
  assert (Hc : has_column d index).
  { intros n Hn. rewrite (W n Hn). exact Hi. }
  pose proof (sortTable_unfold index index d) as U. simpl in U.
  destruct (sort_rows_returns d (if sortedAsc d index then -1 else 1) index Hc)
    as [sorted Hs].
  rewrite Hs in U. destruct U as (d' & -> & _). reflexivity.
Qed.

Lemma C9_click_returns_witness :
  well_formed sample /\ fst (click 0 sample) = Normal tt.
Proof.
  assert (W : well_formed sample) by (intros n [<-|[<-|[<-|[]]]]; reflexivity).
  split; [exact W|].
  apply (C9_click_returns 0 sample); [simpl; lia|exact W].
Defined.

(** Without the precondition the listener does throw: a row that lacks the
    clicked cell makes the comparator fail, the headers are left cleared
    and the body as it was. *)
Example click_throws_on_short_row :
  fst (click 1 sample_short) = Throw TypeError /\
  ths (snd (click 1 sample_short)) = [[]; []] /\
  tbody (snd (click 1 sample_short)) = [0; 1; 2; 3]%nat.
Proof. vm_compute. repeat split. Qed.

(** C10, as the code has it.  When the key of one row is a number and the
    key of the other is a string, the string is a lower-cased text that does
    not convert to a number, and the comparator returns 0 whichever row
    comes first: no order across the two kinds is applied. *)
Theorem C10_number_against_text d direction colIndex a b cellA cellB x s :
  cellText d colIndex a = Normal cellA ->
  cellText d colIndex b = Normal cellB ->
  sortKey cellA = VNum x ->
  sortKey cellB = VStr s ->
  s = toLowerCase cellB /\ StringToNumber s = NaN /\
  comparator d direction colIndex a b = Normal 0 /\
  comparator d direction colIndex b a = Normal 0.
Proof.
  intros Ha Hb Ka Kb.
  assert (N : isNaN cellB = true /\ s = toLowerCase cellB).
  { unfold sortKey in Kb. destruct (isNaN cellB); [|discriminate].
    injection Kb as <-. split; reflexivity. }
  destruct N as [N ->].
  pose proof (is_nan_true _ (isNaN_toLowerCase _ N)) as L.
  split; [reflexivity|]. split; [exact L|].
  unfold comparator. rewrite Ha, Hb. simpl. rewrite Ka, Kb.
  unfold signal, gt, lt, IsLessThan, ToNumber. rewrite L. unfold NaN.
  rewrite SFcompare_nan_r. simpl. split; reflexivity.
Qed.

Lemma C10_number_against_text_witness :
  sortKey "Infinity" = VNum (S754_infinity false) /\
  sortKey "alpha" = VStr "alpha" /\
  "alpha" = toLowerCase "alpha" /\ StringToNumber "alpha" = NaN /\
  comparator sample 1 1 2%nat 1%nat = Normal 0 /\
  comparator sample 1 1 1%nat 2%nat = Normal 0.
Proof.
  split; [reflexivity|]. split; [reflexivity|].
  apply (C10_number_against_text sample 1 1 2%nat 1%nat "Infinity" "alpha"
           (S754_infinity false) "alpha"); reflexivity.
Defined.

Lemma sortTableWith_sort colIndex header d :
  sortTableWith sort colIndex header d = sortTable colIndex header d.
Proof. reflexivity. Qed.

(** C10 as it is worded fails in its consequence, that the place of such
    rows is settled by the stability of the sort alone.  In the column
    3, 1, x, 2 the comparator ties the text x and the number 2, and x comes
    first; the method of V8 leaves 2 before x, the insertion sort leaves x
    before 2.  The comparator is not consistent there, and where the two
    rows end up hangs on the sorting method. *)
Lemma C10_counterexample_placement :
  let tied := fun n => Nat.eqb n 2 || Nat.eqb n 3 in
  cellText mixed 0 2 = Normal "x" /\
  cellText mixed 0 3 = Normal "2" /\
  sortKey "x" = VStr "x" /\
  sortKey "2" = VNum (S754_finite false 4503599627370496 (-51)) /\
  comparator mixed 1 0 2 3 = Normal 0 /\
  comparator mixed 1 0 3 2 = Normal 0 /\
  filter tied (tbody mixed) = [2; 3]%nat /\
  tbody (snd (sortTableWith TimSort_short 0 0 mixed)) = [1; 3; 0; 2]%nat /\
  filter tied (tbody (snd (sortTableWith TimSort_short 0 0 mixed))) = [3; 2]%nat /\
  tbody (snd (sortTableWith sort 0 0 mixed)) = [1; 0; 2; 3]%nat /\
  filter tied (tbody (snd (sortTableWith sort 0 0 mixed))) = [2; 3]%nat.
Proof. vm_compute. repeat split. Qed.

(** ** Further properties of the comparator *)

(** *** The order of strings *)

Lemma string_lt_irrefl a : string_lt a a = false.
Proof.
  induction a as [|x a IH]; simpl; [reflexivity|].
  rewrite N.ltb_irrefl. exact IH.
Qed.

Lemma string_lt_asym a b : string_lt a b = true -> string_lt b a = false.
Proof.
  revert b; induction a as [|x a IH]; intros [|y b]; simpl; try congruence.
  destruct (N.ltb_spec (code x) (code y)), (N.ltb_spec (code y) (code x));
    try congruence; try lia. apply IH.
Qed.

(** "Not after" is transitive. *)
Lemma string_le_trans a b c :
  string_lt b a = false -> string_lt c b = false -> string_lt c a = false.
Proof.
  revert b c; induction a as [|x a IH]; intros [|y b] [|z c]; simpl;
    try congruence.
  destruct (N.ltb_spec (code y) (code x)), (N.ltb_spec (code x) (code y)),
    (N.ltb_spec (code z) (code y)), (N.ltb_spec (code y) (code z)),
    (N.ltb_spec (code z) (code x)), (N.ltb_spec (code x) (code z));
    try congruence; try lia. apply IH.
Qed.

(** *** The order of numbers *)

Lemma SFcompare_antisym x y :
  SFcompare y x = option_map CompOpp (SFcompare x y).
Proof.
  destruct x as [sx|sx| |sx mx ex], y as [sy|sy| |sy my ey]; simpl;
    try reflexivity;
    try (destruct sx; reflexivity); try (destruct sy; reflexivity);
    try (destruct sx, sy; reflexivity).
  change (Pos.compare_cont Eq my mx) with (my ?= mx)%positive.
  change (Pos.compare_cont Eq mx my) with (mx ?= my)%positive.
  rewrite (Pos.compare_antisym mx my), (Z.compare_antisym ex ey).
  destruct sx, sy; try reflexivity;
    destruct (ex ?= ey); simpl; try reflexivity;
    destruct (mx ?= my)%positive; reflexivity.
Qed.

Lemma SFcompare_rank x y :
  is_nan x = false -> is_nan y = false ->
  SFcompare x y = Some (rank_compare (float_rank x) (float_rank y)).
Proof.
  destruct x as [sx|sx| |sx mx ex], y as [sy|sy| |sy my ey]; simpl;
    try discriminate; intros _ _;
    try (destruct sx; reflexivity); try (destruct sy; reflexivity);
    try (destruct sx, sy; reflexivity); try reflexivity.
  destruct sx, sy; simpl; try reflexivity.
  rewrite Z.compare_opp, (Z.compare_antisym ex ey).
  change (Pos.compare_cont Eq mx my) with (mx ?= my)%positive.
  change (Z.neg mx ?= Z.neg my) with (CompOpp (mx ?= my)%positive).
  destruct (ex ?= ey); reflexivity.
Qed.

Lemma rank_compare_refl a : rank_compare a a = Eq.
Proof. destruct a as [[a1 a2] a3]. simpl. now rewrite !Z.compare_refl. Qed.

Lemma rank_le_trans a b c :
  rank_compare b a <> Lt -> rank_compare c b <> Lt -> rank_compare c a <> Lt.
Proof.
  destruct a as [[a1 a2] a3], b as [[b1 b2] b3], c as [[c1 c2] c3]. simpl.
  destruct (Z.compare_spec b1 a1), (Z.compare_spec c1 b1), (Z.compare_spec c1 a1);
    try congruence; try lia;
  destruct (Z.compare_spec b2 a2), (Z.compare_spec c2 b2), (Z.compare_spec c2 a2);
    try congruence; try lia;
  destruct (Z.compare_spec b3 a3), (Z.compare_spec c3 b3), (Z.compare_spec c3 a3);
    try congruence; lia.
Qed.

Lemma SFltb_irrefl x : SFltb x x = false.
Proof.
  unfold SFltb. destruct (is_nan x) eqn:N.
  - apply is_nan_true in N. now subst.
  - now rewrite (SFcompare_rank x x N N), rank_compare_refl.
Qed.

Lemma SFltb_asym x y : SFltb x y = true -> SFltb y x = false.
Proof.
  unfold SFltb. rewrite (SFcompare_antisym x y).
  destruct (SFcompare x y) as [[]|]; simpl; congruence.
Qed.

Lemma SFle_trans x y z :
  is_nan x = false -> is_nan y = false -> is_nan z = false ->
  SFltb y x = false -> SFltb z y = false -> SFltb z x = false.
Proof.
  intros Nx Ny Nz. unfold SFltb.
  rewrite (SFcompare_rank y x Ny Nx), (SFcompare_rank z y Nz Ny),
    (SFcompare_rank z x Nz Nx).
  pose proof (rank_le_trans (float_rank x) (float_rank y) (float_rank z)) as T.
  destruct (rank_compare (float_rank y) (float_rank x)) eqn:E1;
    destruct (rank_compare (float_rank z) (float_rank y)) eqn:E2;
    destruct (rank_compare (float_rank z) (float_rank x)) eqn:E3;
    try congruence; intros _ _; exfalso; apply T; congruence.
Qed.

(** *** The relational operators *)

Lemma lt_irrefl v : lt v v = false.
Proof.
  destruct v as [x|s]; unfold lt, IsLessThan; simpl.
  - pose proof (SFltb_irrefl x) as H. unfold SFltb in H.
    destruct (SFcompare x x) as [[]|]; congruence.
  - apply string_lt_irrefl.
Qed.

Lemma lt_asym u v : lt u v = true -> lt v u = false.
Proof.
  assert (G : forall x y,
    match SFcompare x y with Some Lt => Some true | Some _ => Some false | None => None end
      = Some true ->
    match SFcompare y x with Some Lt => Some true | Some _ => Some false | None => None end
      <> Some true).
  { intros x y. rewrite (SFcompare_antisym x y).
    destruct (SFcompare x y) as [[]|]; simpl; congruence. }
  unfold lt, IsLessThan.
  destruct u as [x|s], v as [y|t];
    try (intros H;
         match goal with
         | |- match ?m with Some r => r | None => false end = false =>
             destruct m as [[]|] eqn:E; try reflexivity; exfalso
         end;
         match type of H with
         | match ?m' with Some r => r | None => false end = true =>
             destruct m' as [[]|] eqn:E'; try discriminate
         end;
         eapply G; eassumption).
  apply string_lt_asym.
Qed.

Lemma gt_is_lt u v : gt u v = lt v u.
Proof. reflexivity. Qed.

Lemma signal_swap direction u v : signal direction v u = - signal direction u v.
Proof.
  unfold signal. rewrite !gt_is_lt.
  destruct (lt u v) eqn:E1.
  - rewrite (lt_asym _ _ E1). symmetry. apply Z.opp_involutive.
  - destruct (lt v u); reflexivity.
Qed.

Lemma signal_same direction v : signal direction v v = 0.
Proof. unfold signal. now rewrite gt_is_lt, lt_irrefl. Qed.

(** *** The comparator on two rows *)

Lemma comparator_rowKey d direction colIndex a b :
  comparator d direction colIndex a b
  = match rowKey d colIndex a, rowKey d colIndex b with
    | Some ka, Some kb => Normal (signal direction ka kb)
    | _, _ => Throw TypeError
    end.
Proof.
  unfold comparator, cellText, rowKey.
  destruct (nth_error (cells (heap d a)) colIndex);
    destruct (nth_error (cells (heap d b)) colIndex); reflexivity.
Qed.

(** X1.  Swapping the two rows negates what the comparator returns, and a throw
    stays a throw. *)
Theorem comparator_swap d direction colIndex a b :
  comparator d direction colIndex b a
  = (v <- comparator d direction colIndex a b ;; Normal (- v)).
Proof.
  rewrite !comparator_rowKey.
  destruct (rowKey d colIndex a), (rowKey d colIndex b); simpl; try reflexivity.
  now rewrite signal_swap.
Qed.

Lemma signal_nan_l direction v : signal direction (VNum NaN) v = 0.
Proof.
  unfold signal, gt, lt, IsLessThan, ToNumber, NaN.
  destruct v as [y|s]; rewrite SFcompare_nan_r; reflexivity.
Qed.

(** X2.  A row whose cell in the clicked column is empty or holds white space
    only compares as 0 with every row that has the cell, on either side. *)
Theorem empty_cell_compares_equal d direction colIndex a b textA textB :
  nth_error (cells (heap d a)) colIndex = Some textA ->
  nth_error (cells (heap d b)) colIndex = Some textB ->
  trim textA = EmptyString ->
  comparator d direction colIndex a b = Normal 0 /\
  comparator d direction colIndex b a = Normal 0.
Proof.
  intros Ha Hb E.
  assert (G : comparator d direction colIndex a b = Normal 0).
  { rewrite comparator_rowKey. unfold rowKey. rewrite Ha, Hb, E.
    change (sortKey "") with (VNum NaN). now rewrite signal_nan_l. }
  split; [exact G|].
  rewrite comparator_rowKey in G |- *.
  destruct (rowKey d colIndex a), (rowKey d colIndex b); try discriminate G.
  injection G as G. now rewrite signal_swap, G.
Qed.

Lemma empty_cell_compares_equal_witness :
  trim "  " = EmptyString /\
  comparator ledger 1 2 2 3 = Normal 0 /\ comparator ledger 1 2 3 2 = Normal 0.
Proof.
  split; [reflexivity|].
  apply (empty_cell_compares_equal ledger 1 2 2 3 "  " "x"); reflexivity.
Defined.

Lemma nondecimal_reads_as_zero t n :
  parse_NonDecimalIntegerLiteral t = Some n ->
  match parse_StrDecimalLiteral t with
  | Some (l, _) => literal_value l
  | None => NaN
  end = S754_zero false.
Proof.
  unfold parse_NonDecimalIntegerLiteral.
  destruct t as [|z [|k ds]]; try discriminate.
  destruct (code z =? 48)%N eqn:Ez; [|discriminate].
  apply code_eqb_true in Ez. subst z.
  destruct ((code k =? 98) || (code k =? 66))%N eqn:Eb.
  { intros _. apply orb_true_iff in Eb as [E|E];
      apply code_eqb_true in E; subst k; reflexivity. }
  destruct ((code k =? 111) || (code k =? 79))%N eqn:Eo.
  { intros _. apply orb_true_iff in Eo as [E|E];
      apply code_eqb_true in E; subst k; reflexivity. }
  destruct ((code k =? 120) || (code k =? 88))%N eqn:Ex; [|discriminate].
  intros _. apply orb_true_iff in Ex as [E|E];
    apply code_eqb_true in E; subst k; reflexivity.
Qed.

(** X3.  A cell that holds a binary, octal or hexadecimal literal is keyed as the
    number 0, whatever the literal's value: isNaN accepts it and parseFloat
    reads its leading 0 only. *)
Theorem nondecimal_cell_keyed_zero d colIndex a text n :
  nth_error (cells (heap d a)) colIndex = Some text ->
  parse_NonDecimalIntegerLiteral (trim text) = Some n ->
  rowKey d colIndex a = Some (VNum (S754_zero false)).
Proof.
  intros Ha Hn. unfold rowKey. rewrite Ha. f_equal.
  unfold sortKey. rewrite isNaN_recognizer. unfold isStringNumericLiteral.
  rewrite trim_idempotent. unfold whole_nondecimal at 1. rewrite Hn.
  rewrite orb_true_r. simpl. f_equal.
  unfold parseFloat. rewrite trimStart_trim.
  exact (nondecimal_reads_as_zero _ _ Hn).
Qed.

Lemma nondecimal_cell_keyed_zero_witness :
  parse_NonDecimalIntegerLiteral (trim "0x1F") = Some 31 /\
  rowKey ledger 2 1 = Some (VNum (S754_zero false)).
Proof.
  split; [reflexivity|].
  apply (nondecimal_cell_keyed_zero ledger 2 1 "0x1F" 31); reflexivity.
Defined.

(** X4.  Two cells that do not convert to a number and are the same text up to
    surrounding white space and the case of letters compare as 0. *)
Theorem text_compare_ignores_case d direction colIndex a b textA textB :
  nth_error (cells (heap d a)) colIndex = Some textA ->
  nth_error (cells (heap d b)) colIndex = Some textB ->
  isNaN (trim textA) = true ->
  isNaN (trim textB) = true ->
  toLowerCase (trim textA) = toLowerCase (trim textB) ->
  comparator d direction colIndex a b = Normal 0.
Proof.
  intros Ha Hb Na Nb E. rewrite comparator_rowKey. unfold rowKey.
  rewrite Ha, Hb. unfold sortKey. rewrite Na, Nb, E.
  now rewrite signal_same.
Qed.

Lemma text_compare_ignores_case_witness :
  comparator ledger (-1) 1 1 3 = Normal 0.
Proof.
  apply (text_compare_ignores_case ledger (-1) 1 1 3 "Apple" "apple ");
    reflexivity.
Defined.

(** ** Further properties of the sort *)

Lemma insert_ext_in {A} (f g : A -> A -> completion Z) x l :
  (forall y, In y l -> f x y = g x y) -> insert f x l = insert g x l.
Proof.
  induction l as [|y l IH]; simpl; intros E; [reflexivity|].
  rewrite (E y (or_introl eq_refl)), IH; [reflexivity|].
  intros z Hz. apply E. now right.
Qed.

Lemma sort_ext_in {A} (f g : A -> A -> completion Z) l :
  (forall a b, In a l -> In b l -> f a b = g a b) -> sort f l = sort g l.
Proof.
  induction l as [|x l IH]; simpl; intros E; [reflexivity|].
  rewrite IH by (intros; apply E; now right).
  destruct (sort g l) as [s|e] eqn:Hs; simpl; [|reflexivity].
  apply insert_ext_in. intros y Hy. apply E; [now left|right].
  eapply Permutation_in; [apply Permutation_sym, (sort_perm _ _ _ Hs)|exact Hy].
Qed.

(** Stability: elements that the comparator does not put one after the
    other keep the order they had. *)
Lemma insert_stable {A} (f : A -> A -> completion Z) (p : A -> bool) x l r :
  (p x = true -> forall y, In y l -> p y = true ->
     exists v, f x y = Normal v /\ v <= 0) ->
  insert f x l = Normal r ->
  filter p r = filter p (x :: l).
Proof.
  revert r; induction l as [|y l IH]; simpl; intros r H E.
  - injection E as <-. reflexivity.
  - destruct (f x y) as [v|e] eqn:Ef; simpl in E; [|discriminate].
    destruct (Z.leb_spec v 0) as [Hle|Hgt].
    + injection E as <-. reflexivity.
    + destruct (insert f x l) as [r'|e] eqn:Er; simpl in E; [|discriminate].
      injection E as <-. simpl.
      rewrite (IH r') by (intros; try reflexivity; apply H; auto).
      simpl. destruct (p x) eqn:Px; [|reflexivity].
      destruct (p y) eqn:Py; [|reflexivity].
      destruct (H eq_refl y (or_introl eq_refl) Py) as (v' & Ev & Hv).
      rewrite Ef in Ev. injection Ev as <-. lia.
Qed.

Lemma sort_stable {A} (f : A -> A -> completion Z) (p : A -> bool) l r :
  (forall x y, In x l -> In y l -> p x = true -> p y = true ->
     exists v, f x y = Normal v /\ v <= 0) ->
  sort f l = Normal r ->
  filter p r = filter p l.
Proof.
  revert r; induction l as [|x l IH]; simpl; intros r H E.
  - injection E as <-. reflexivity.
  - destruct (sort f l) as [s|e] eqn:Hs; simpl in E; [|discriminate].
    rewrite (insert_stable f p x s r); [| |exact E].
    + simpl. rewrite (IH s); [reflexivity| |reflexivity].
      intros; apply H; auto.
    + intros Px y Hy Py. apply H; auto. right.
      eapply Permutation_in; [apply Permutation_sym, (sort_perm _ _ _ Hs)|exact Hy].
Qed.

(** Order: on elements among which the comparator is consistent the result
    is in order. *)
Section SortedOn.
Context {A : Type}.
Variable cmp : A -> A -> Z.
Variable dom : A -> Prop.
Hypothesis cmp_trans :
  forall a b c, dom a -> dom b -> dom c ->
    cmp a b <= 0 -> cmp b c <= 0 -> cmp a c <= 0.
Hypothesis cmp_total : forall a b, dom a -> dom b -> 0 < cmp a b -> cmp b a <= 0.

Lemma insert_sorted_on x l :
  dom x -> Forall dom l ->
  StronglySorted (fun a b => cmp a b <= 0) l ->
  exists r,
    insert (fun a b => Normal (cmp a b)) x l = Normal r /\
    StronglySorted (fun a b => cmp a b <= 0) r.
Proof.
  intros Dx. induction l as [|y l IH]; intros Dl S; simpl.
  - eexists; split; [reflexivity|]. repeat constructor.
  - inversion S as [|? ? S' F]; subst. inversion Dl as [|? ? Dy Dl']; subst.
    destruct (Z.leb_spec (cmp x y) 0) as [Hle|Hgt].
    + eexists; split; [reflexivity|]. constructor; [exact S|].
      constructor; [exact Hle|].
      rewrite Forall_forall in F, Dl' |- *. intros z Hz.
      apply (cmp_trans x y z); auto.
    + destruct (IH Dl' S') as (r & Hr & Sr). rewrite Hr. simpl.
      eexists; split; [reflexivity|]. constructor; [exact Sr|].
      apply (Permutation_Forall (insert_perm _ _ _ _ Hr)).
      constructor; [apply cmp_total; assumption|exact F].
Qed.

Lemma sort_sorted_on l :
  Forall dom l ->
  exists r,
    sort (fun a b => Normal (cmp a b)) l = Normal r /\
    StronglySorted (fun a b => cmp a b <= 0) r /\
    Permutation l r.
Proof.
  induction l as [|x l IH]; intros Dl; simpl.
  - eexists; repeat split; constructor.
  - inversion Dl as [|? ? Dx Dl']; subst.
    destruct (IH Dl') as (s & Hs & Ss & Ps). rewrite Hs. simpl.
    destruct (insert_sorted_on x s Dx (Permutation_Forall Ps Dl') Ss)
      as (r & Hr & Sr).
    exists r. repeat split; try assumption.
    eapply Permutation_trans; [apply perm_skip, Ps|].
    apply (insert_perm _ _ _ _ Hr).
Qed.
End SortedOn.

(** A throw: with two elements or more, an element on which the comparator
    throws makes the sort throw. *)
Lemma sort_throws {A} (f : A -> A -> completion Z) (bad : A -> Prop) l :
  (forall a b, bad a \/ bad b -> f a b = Throw TypeError) ->
  (2 <= List.length l)%nat ->
  Exists bad l ->
  sort f l = Throw TypeError.
Proof.
  intros Hf. induction l as [|x l IH]; simpl; intros L B; [lia|].
  destruct (sort f l) as [s|[]] eqn:Hs; [|reflexivity].
  simpl. pose proof (sort_perm _ _ _ Hs) as P.
  destruct s as [|z s].
  { apply Permutation_sym in P. apply Permutation_nil in P. subst l.
    simpl in L. lia. }
  simpl. inversion B as [? ? Bx|? ? Bl]; subst.
  - rewrite (Hf x z (or_introl Bx)). reflexivity.
  - destruct l as [|y [|y' l]].
    + inversion Bl.
    + apply Permutation_length_1_inv in P. injection P as -> ->.
      inversion Bl as [? ? By|? ? Bn]; subst; [|inversion Bn].
      rewrite (Hf x y (or_intror By)). reflexivity.
    + assert (T : Normal (z :: s) = Throw TypeError)
        by (apply IH; [simpl; lia|exact Bl]).
      discriminate T.
Qed.

(** ** Further properties of sortTable *)

Lemma sortTable_body colIndex header d :
  NoDup (tbody d) ->
  match sort (comparator d (if sortedAsc d header then -1 else 1) colIndex)
          (tbody d) with
  | Normal sorted =>
      fst (sortTable colIndex header d) = Normal tt /\
      tbody (snd (sortTable colIndex header d)) = sorted
  | Throw e =>
      fst (sortTable colIndex header d) = Throw e /\
      tbody (snd (sortTable colIndex header d)) = tbody d
  end.
Proof.
  intros ND. pose proof (sortTable_unfold colIndex header d) as U. simpl in U.
  destruct (sort _ (tbody d)) as [sorted|e] eqn:Hs.
  - destruct U as (d' & -> & _ & Hb & _). simpl. split; [reflexivity|].
    rewrite Hb. apply fold_appendChild_sorted; [exact ND|].
    apply (sort_perm _ _ _ Hs).
  - rewrite U. split; reflexivity.
Qed.

(** X5.  Ties keep their order.  On a column where the comparator is
    consistent (every clicked cell a whole decimal literal, or none
    converting to a number), rows that the comparator does not tell apart
    (it returns 0 on any two of them) are, after the sort, in the order they
    had before it, whether the sort is ascending or descending. *)
Theorem sortTable_stable colIndex header d (p : node -> bool) :
  NoDup (tbody d) ->
  numeric_column d colIndex \/ text_column d colIndex ->
  (forall a b direction,
      In a (tbody d) -> In b (tbody d) -> p a = true -> p b = true ->
      comparator d direction colIndex a b = Normal 0) ->
  filter p (tbody (snd (sortTable colIndex header d))) = filter p (tbody d).
Proof.
  intros ND _ H. pose proof (sortTable_body colIndex header d ND) as B.
  destruct (sort _ (tbody d)) as [sorted|e] eqn:Hs.
  - destruct B as [_ ->]. apply (sort_stable _ p _ _) with (2 := Hs).
    intros x y Hx Hy Px Py. exists 0. split; [|lia]. now apply H.
  - destruct B as [_ ->]. reflexivity.
Qed.

Lemma sortTable_stable_witness :
  let p := fun n => Nat.eqb n 1 || Nat.eqb n 3 in
  numeric_column ledger 0 /\
  tbody (snd (sortTable 0 0 ledger)) = [1; 3; 2; 0]%nat /\
  filter p (tbody (snd (sortTable 0 0 ledger))) = filter p (tbody ledger).
Proof.
  intros p.
  assert (N : numeric_column ledger 0)
    by (intros n [<-|[<-|[<-|[<-|[]]]]]; eexists; split; reflexivity).
  split; [exact N|]. split; [reflexivity|].
  apply (sortTable_stable 0 0 ledger p).
  - simpl. repeat constructor; simpl; lia.
  - left. exact N.
  - intros a b direction Ha Hb Pa Pb.
    destruct Ha as [<-|[<-|[<-|[<-|[]]]]]; try discriminate Pa;
      destruct Hb as [<-|[<-|[<-|[<-|[]]]]]; try discriminate Pb;
      reflexivity.
Defined.

(** X8.  With two rows or more, a body row without the clicked cell makes the
    click throw a TypeError; the sort markers of all headers are then gone
    and the body and the rows are as they were. *)
Theorem sortTable_throws_on_missing_cell colIndex header d :
  (2 <= List.length (tbody d))%nat ->
  Exists (fun n => nth_error (cells (heap d n)) colIndex = None) (tbody d) ->
  sortTable colIndex header d
  = (Throw TypeError,
     set_ths d (map (remove ["sorted-asc"; "sorted-desc"]) (ths d))).
Proof.
  intros L B. pose proof (sortTable_unfold colIndex header d) as U. simpl in U.
  assert (T : forall direction a b,
             nth_error (cells (heap d a)) colIndex = None \/
             nth_error (cells (heap d b)) colIndex = None ->
             comparator d direction colIndex a b = Throw TypeError).
  { intros direction a b H. rewrite comparator_rowKey. unfold rowKey.
    destruct H as [-> | ->]; [reflexivity|].
    destruct (nth_error (cells (heap d a)) colIndex); reflexivity. }
  rewrite (sort_throws _ _ _ (T _) L B) in U. exact U.
Qed.

Lemma sortTable_throws_on_missing_cell_witness :
  sortTable 1 0 sample_short
  = (Throw TypeError,
     set_ths sample_short
       (map (remove ["sorted-asc"; "sorted-desc"]) (ths sample_short))).
Proof.
  apply (sortTable_throws_on_missing_cell 1 0 sample_short).
  - simpl. lia.
  - simpl. do 3 apply Exists_cons_tl. apply Exists_cons_hd. reflexivity.
Defined.

(** X9.  With fewer than two rows the comparator is never called: the click
    returns whatever the cells are, even if the clicked cell is missing,
    and the body stays as it is. *)
Theorem sortTable_returns_on_short_body colIndex header d :
  (List.length (tbody d) <= 1)%nat ->
  fst (sortTable colIndex header d) = Normal tt /\
  tbody (snd (sortTable colIndex header d)) = tbody d.
Proof.
  intros L.
  assert (ND : NoDup (tbody d)).
  { destruct (tbody d) as [|x [|y l]]; [constructor| |simpl in L; lia].
    constructor; [intros []|constructor]. }
  pose proof (sortTable_body colIndex header d ND) as B.
  destruct (tbody d) as [|x [|y l]]; [exact B|exact B|simpl in L; lia].
Qed.

Lemma sortTable_returns_on_short_body_witness :
  nth_error (cells (heap (set_tbody sample_short [3%nat]) 3)) 1 = None /\
  fst (sortTable 1 0 (set_tbody sample_short [3%nat])) = Normal tt /\
  tbody (snd (sortTable 1 0 (set_tbody sample_short [3%nat]))) = [3%nat].
Proof.
  split; [reflexivity|].
  apply (sortTable_returns_on_short_body 1 0 (set_tbody sample_short [3%nat])).
  simpl. lia.
Defined.

(** *** The order of the sorted body *)

Lemma lt_num x y : lt (VNum x) (VNum y) = SFltb x y.
Proof.
  unfold lt, IsLessThan, SFltb. simpl.
  destruct (SFcompare x y) as [[]|]; reflexivity.
Qed.

Lemma signal_asc_le u v : signal 1 u v <= 0 <-> lt v u = false.
Proof.
  unfold signal. rewrite gt_is_lt. destruct (lt v u) eqn:E.
  - split; [lia|discriminate].
  - destruct (lt u v); split; (reflexivity || lia).
Qed.

Lemma signal_desc_le u v : signal (-1) u v <= 0 <-> lt u v = false.
Proof.
  unfold signal. rewrite gt_is_lt. destruct (lt v u) eqn:E.
  - split; [intros _; apply (lt_asym _ _ E)|simpl; lia].
  - destruct (lt u v); split; try reflexivity; try discriminate; simpl; lia.
Qed.

Lemma SFleb_negb_ltb x y :
  is_nan x = false -> is_nan y = false -> SFleb x y = negb (SFltb y x).
Proof.
  intros Nx Ny. unfold SFleb, SFltb.
  rewrite (SFcompare_antisym x y), (SFcompare_rank x y Nx Ny).
  destruct (rank_compare (float_rank x) (float_rank y)); reflexivity.
Qed.

Lemma StronglySorted_impl_on {A} (R R' : A -> A -> Prop) l :
  (forall a b, In a l -> In b l -> R a b -> R' a b) ->
  StronglySorted R l -> StronglySorted R' l.
Proof.
  induction l as [|x l IH]; intros H S; [constructor|].
  inversion S as [|? ? S' F]; subst. constructor.
  - apply IH; [|exact S']. intros a b Ha Hb. apply H; now right.
  - rewrite Forall_forall in F |- *. intros y Hy.
    apply H; [now left|now right|now apply F].
Qed.

(** When the keys of the body rows come from a set on which "not less
    than" is transitive, the sort returns and leaves the body in the order
    of the comparator. *)
Lemma sortTable_sorted colIndex header d (dom : value -> Prop) :
  NoDup (tbody d) ->
  (forall u v w, dom u -> dom v -> dom w ->
     lt v u = false -> lt w v = false -> lt w u = false) ->
  (forall n, In n (tbody d) -> exists k, rowKey d colIndex n = Some k /\ dom k) ->
  fst (sortTable colIndex header d) = Normal tt /\
  StronglySorted
    (fun a b =>
       rowSignal d (if sortedAsc d header then -1 else 1) colIndex a b <= 0)
    (tbody (snd (sortTable colIndex header d))) /\
  Permutation (tbody d) (tbody (snd (sortTable colIndex header d))).
Proof.
  intros ND T K. pose proof (sortTable_body colIndex header d ND) as B.
  set (direction := if sortedAsc d header then -1 else 1) in *.
  assert (E : sort (comparator d direction colIndex) (tbody d)
              = sort (fun a b => Normal (rowSignal d direction colIndex a b))
                  (tbody d)).
  { apply sort_ext_in. intros a b Ha Hb. rewrite comparator_rowKey.
    unfold rowSignal.
    destruct (K a Ha) as (ka & -> & _). destruct (K b Hb) as (kb & -> & _).
    reflexivity. }
  rewrite E in B.
  destruct (sort_sorted_on (rowSignal d direction colIndex)
              (fun n => exists k, rowKey d colIndex n = Some k /\ dom k))
    with (l := tbody d) as (r & Hr & Sr & Pr).
  - intros a b c (ka & Ea & Da) (kb & Eb & Db) (kc & Ec & Dc).
    unfold rowSignal. rewrite Ea, Eb, Ec. unfold direction.
    destruct (sortedAsc d header).
    + rewrite !signal_desc_le. intros H1 H2. apply (T kc kb ka); assumption.
    + rewrite !signal_asc_le. intros H1 H2. apply (T ka kb kc); assumption.
  - intros a b (ka & Ea & _) (kb & Eb & _). unfold rowSignal.
    rewrite Ea, Eb, (signal_swap direction ka kb). lia.
  - apply Forall_forall. exact K.
  - rewrite Hr in B. destruct B as [-> ->]. repeat split; assumption.
Qed.

(** X6.  A numeric column comes out in numeric order.  When the clicked cell of
    every body row is a whole decimal literal, the click returns and leaves
    the rows with their numbers non-decreasing down the body, or
    non-increasing if the header carried the ascending marker. *)
Theorem numeric_column_sorted colIndex header d :
  NoDup (tbody d) ->
  (forall n, In n (tbody d) ->
     exists text, nth_error (cells (heap d n)) colIndex = Some text /\
                  whole_decimal (trim text) = true) ->
  fst (sortTable colIndex header d) = Normal tt /\
  StronglySorted
    (fun a b =>
       if sortedAsc d header
       then SFleb (cellNumber d colIndex b) (cellNumber d colIndex a) = true
       else SFleb (cellNumber d colIndex a) (cellNumber d colIndex b) = true)
    (tbody (snd (sortTable colIndex header d))).
Proof.
  intros ND H.
  assert (K : forall n, In n (tbody d) ->
            rowKey d colIndex n = Some (VNum (cellNumber d colIndex n)) /\
            is_nan (cellNumber d colIndex n) = false).
  { intros n Hn. destruct (H n Hn) as (text & Ht & W).
    unfold rowKey, cellNumber, cellTrimmed.
    rewrite (nth_error_nth _ _ _ Ht), Ht.
    unfold whole_decimal in W.
    destruct (parse_StrDecimalLiteral (trim text)) as [[l [|c r]]|] eqn:P;
      try discriminate.
    rewrite (sortKey_decimal _ _ P).
    destruct (decimal_conversions_agree _ _ P) as [_ ->].
    split; [reflexivity|apply literal_value_not_nan]. }
  destruct (sortTable_sorted colIndex header d
              (fun k => exists x, k = VNum x /\ is_nan x = false) ND)
    as (R & S & P).
  - intros u v w (x & -> & Nx) (y & -> & Ny) (z & -> & Nz).
    rewrite !lt_num. apply SFle_trans; assumption.
  - intros n Hn. destruct (K n Hn) as [E N]. eexists; split; [exact E|].
    eexists; split; [reflexivity|exact N].
  - split; [exact R|].
    apply (StronglySorted_impl_on _ _ _) with (2 := S).
    intros a b Ha Hb.
    apply (Permutation_in _ (Permutation_sym P)) in Ha, Hb.
    destruct (K a Ha) as [Ea Na]. destruct (K b Hb) as [Eb Nb].
    unfold rowSignal. rewrite Ea, Eb.
    destruct (sortedAsc d header).
    + rewrite signal_desc_le, lt_num, (SFleb_negb_ltb _ _ Nb Na).
      now intros ->.
    + rewrite signal_asc_le, lt_num, (SFleb_negb_ltb _ _ Na Nb).
      now intros ->.
Qed.

Lemma numeric_column_sorted_witness :
  tbody (snd (sortTable 0 0 ledger)) = [1; 3; 2; 0]%nat /\
  fst (sortTable 0 0 ledger) = Normal tt /\
  StronglySorted
    (fun a b => SFleb (cellNumber ledger 0 a) (cellNumber ledger 0 b) = true)
    (tbody (snd (sortTable 0 0 ledger))).
Proof.
  split; [reflexivity|].
  apply (numeric_column_sorted 0 0 ledger).
  - simpl. repeat constructor; simpl; lia.
  - intros n [<-|[<-|[<-|[<-|[]]]]]; eexists; split; reflexivity.
Defined.

(** X7.  A text column comes out in the order of the lower-cased texts.  When
    no clicked cell of a body row converts to a number, the click returns
    and leaves the rows with their trimmed, lower-cased texts in
    non-decreasing string order down the body, or non-increasing if the
    header carried the ascending marker. *)
Theorem text_column_sorted colIndex header d :
  NoDup (tbody d) ->
  (forall n, In n (tbody d) ->
     exists text, nth_error (cells (heap d n)) colIndex = Some text /\
                  isNaN (trim text) = true) ->
  fst (sortTable colIndex header d) = Normal tt /\
  StronglySorted
    (fun a b =>
       if sortedAsc d header
       then string_lt (cellLower d colIndex a) (cellLower d colIndex b) = false
       else string_lt (cellLower d colIndex b) (cellLower d colIndex a) = false)
    (tbody (snd (sortTable colIndex header d))).
Proof.
  intros ND H.
  assert (K : forall n, In n (tbody d) ->
            rowKey d colIndex n = Some (VStr (cellLower d colIndex n))).
  { intros n Hn. destruct (H n Hn) as (text & Ht & W).
    unfold rowKey, cellLower, cellTrimmed.
    rewrite (nth_error_nth _ _ _ Ht), Ht. unfold sortKey. now rewrite W. }
  destruct (sortTable_sorted colIndex header d
              (fun k => exists s, k = VStr s) ND)
    as (R & S & P).
  - intros u v w (x & ->) (y & ->) (z & ->). apply string_le_trans.
  - intros n Hn. eexists; split; [apply (K n Hn)|]. eexists; reflexivity.
  - split; [exact R|].
    apply (StronglySorted_impl_on _ _ _) with (2 := S).
    intros a b Ha Hb.
    apply (Permutation_in _ (Permutation_sym P)) in Ha, Hb.
    unfold rowSignal. rewrite (K a Ha), (K b Hb).
    destruct (sortedAsc d header).
    + rewrite signal_desc_le. exact (fun E => E).
    + rewrite signal_asc_le. exact (fun E => E).
Qed.

Lemma text_column_sorted_witness :
  tbody (snd (sortTable 1 1 ledger)) = [0; 2; 1; 3]%nat /\
  map (cellLower ledger 1) (tbody (snd (sortTable 1 1 ledger)))
  = ["pear"; "fig"; "apple"; "apple"] /\
  fst (sortTable 1 1 ledger) = Normal tt /\
  StronglySorted
    (fun a b => string_lt (cellLower ledger 1 a) (cellLower ledger 1 b) = false)
    (tbody (snd (sortTable 1 1 ledger))).
Proof.
  split; [reflexivity|]. split; [reflexivity|].
  apply (text_column_sorted 1 1 ledger).
  - simpl. repeat constructor; simpl; lia.
  - intros n [<-|[<-|[<-|[<-|[]]]]]; eexists; split; reflexivity.
Defined.

(** ** Further properties of the filter *)

Lemma remove_idempotent tokens l : remove tokens (remove tokens l) = remove tokens l.
Proof.
  unfold remove. induction l as [|t l IH]; simpl; [reflexivity|].
  destruct (negb (existsb (String.eqb t) tokens)) eqn:E; simpl; [|exact IH].
  now rewrite E, IH.
Qed.

Lemma add_idempotent token l : add token (add token l) = add token l.
Proof.
  unfold add at 1. rewrite contains_add, String.eqb_refl, orb_true_r.
  reflexivity.
Qed.

Lemma contains_filtered checked c t :
  contains (filtered checked c) t
  = if String.eqb t "hidden" then checked && negb (contains c "error")
    else contains c t.
Proof.
  unfold filtered. destruct checked.
  - apply contains_toggle.
  - rewrite contains_remove. simpl. rewrite orb_false_r.
    destruct (String.eqb t "hidden"); simpl.
    + apply andb_false_r.
    + apply andb_true_r.
Qed.

Lemma filtered_idempotent checked c :
  filtered checked (filtered checked c) = filtered checked c.
Proof.
  unfold filtered at 1. destruct checked.
  - rewrite contains_filtered. simpl. unfold filtered, toggle.
    destruct (negb (contains c "error")).
    + apply add_idempotent.
    + apply remove_idempotent.
  - apply remove_idempotent.
Qed.

Lemma filterRow_classList checked d row n :
  classList (heap (filterRow checked d row) n)
  = if Nat.eqb n row then filtered checked (classList (heap d row))
    else classList (heap d n).
Proof.
  rewrite filterRow_heap. unfold filtered, error.
  destruct (Nat.eqb n row); [|reflexivity]. destruct checked; reflexivity.
Qed.

Lemma fold_filterRow_classList checked l d n :
  classList (heap (fold_left (filterRow checked) l d) n)
  = if existsb (Nat.eqb n) l then filtered checked (classList (heap d n))
    else classList (heap d n).
Proof.
  revert d; induction l as [|x l IH]; intros d; simpl; [reflexivity|].
  rewrite IH, filterRow_classList.
  destruct (Nat.eqb_spec n x) as [->|N]; simpl.
  - destruct (existsb (Nat.eqb x) l); [apply filtered_idempotent|reflexivity].
  - reflexivity.
Qed.

(** What the change listener leaves of a row's class list. *)
Lemma change_classList checked d n :
  classList (heap (change checked d) n)
  = if existsb (Nat.eqb n) (tbody d) then filtered checked (classList (heap d n))
    else classList (heap d n).
Proof. apply fold_filterRow_classList. Qed.

Lemma change_ths checked d : ths (change checked d) = ths d.
Proof. apply (fold_filterRow_frame checked (tbody d) d). Qed.

Lemma change_cells checked d n : cells (heap (change checked d) n) = cells (heap d n).
Proof. apply (fold_filterRow_frame checked (tbody d) d). Qed.

(** X10.  The filter is idempotent, and only the last change counts: a change
    after another leaves each row with exactly the classes that the second
    change alone would have left it with, and running the same change twice
    leaves the very same class lists. *)
Theorem change_last_wins checked1 checked2 d n :
  (forall t,
     contains (classList (heap (change checked2 (change checked1 d)) n)) t
     = contains (classList (heap (change checked2 d) n)) t) /\
  classList (heap (change checked2 (change checked2 d)) n)
  = classList (heap (change checked2 d) n).
Proof.
  rewrite !change_classList, !change_tbody. split.
  - intros t. destruct (existsb (Nat.eqb n) (tbody d)); [|reflexivity].
    rewrite !contains_filtered. destruct (String.eqb t "hidden"); reflexivity.
  - destruct (existsb (Nat.eqb n) (tbody d)); [|reflexivity].
    apply filtered_idempotent.
Qed.

(** X11.  The filter touches nothing but the hidden class of the body rows: every
    other class of every row, the whole class list of a row outside the
    body, and the classes of the headers are as they were. *)
Theorem change_frame checked d :
  (forall n t, t <> "hidden" ->
     contains (classList (heap (change checked d) n)) t
     = contains (classList (heap d n)) t) /\
  (forall n, ~ In n (tbody d) ->
     classList (heap (change checked d) n) = classList (heap d n)) /\
  ths (change checked d) = ths d.
Proof.
  repeat split.
  - intros n t Ht. rewrite change_classList.
    destruct (existsb (Nat.eqb n) (tbody d)); [|reflexivity].
    rewrite contains_filtered.
    destruct (String.eqb_spec t "hidden"); [contradiction|reflexivity].
  - intros n Hn. rewrite change_classList, (filter_not_in _ _ Hn). reflexivity.
  - apply change_ths.
Qed.

Lemma change_frame_witness :
  contains (classList (heap (change true ledger) 2)) "odd" = true /\
  classList (heap (change true ledger) 7) = ["hidden"].
Proof.
  destruct (change_frame true ledger) as (H1 & H2 & _). split.
  - rewrite (H1 2%nat "odd"); [reflexivity|discriminate].
  - rewrite (H2 7%nat); [reflexivity|]. simpl. lia.
Defined.

(** ** The document after sortTable *)

Lemma nth_update_nth {A} k h (f : A -> A) l dflt :
  nth k (update_nth h f l) dflt
  = if Nat.eqb k h && Nat.ltb h (List.length l) then f (nth h l dflt)
    else nth k l dflt.
Proof.
  destruct (Nat.eqb_spec k h) as [->|N]; simpl.
  - destruct (Nat.ltb_spec h (List.length l)) as [L|L].
    + now apply nth_update_nth_eq.
    + revert h L; induction l as [|x l IH]; intros [|h] L; simpl in *;
        try reflexivity; try lia. apply IH. lia.
  - now apply nth_update_nth_neq.
Qed.

Lemma length_update_nth {A} h (f : A -> A) l :
  List.length (update_nth h f l) = List.length l.
Proof.
  revert h; induction l as [|x l IH]; intros [|h]; simpl; try reflexivity.
  now rewrite IH.
Qed.

Lemma fold_appendChild_tbody_ext l d1 d2 :
  tbody d1 = tbody d2 ->
  tbody (fold_left appendChild l d1) = tbody (fold_left appendChild l d2).
Proof.
  revert d1 d2; induction l as [|x l IH]; intros d1 d2 E; simpl; [exact E|].
  apply IH. simpl. now rewrite E.
Qed.

Lemma existsb_In_ext n (l l' : list node) :
  (forall x, In x l <-> In x l') ->
  existsb (Nat.eqb n) l = existsb (Nat.eqb n) l'.
Proof.
  intros H. destruct (existsb (Nat.eqb n) l') eqn:E.
  - apply existsb_exists in E as (x & Hx & Ex). apply existsb_exists.
    exists x. split; [now apply H|exact Ex].
  - destruct (existsb (Nat.eqb n) l) eqn:E'; [|reflexivity].
    apply existsb_exists in E' as (x & Hx & Ex).
    assert (T : existsb (Nat.eqb n) l' = true)
      by (apply existsb_exists; exists x; split; [now apply H|exact Ex]).
    congruence.
Qed.

(** The document a call of sortTable leaves, whichever way it completes:
    the rows and the number of headers are untouched, the body holds the
    same rows, and the class list of each header is the old one without the
    two sort markers, plus the new marker on the clicked header if the call
    returned. *)
Lemma sortTable_state colIndex header d :
  let r := sortTable colIndex header d in
  heap (snd r) = heap d /\
  List.length (ths (snd r)) = List.length (ths d) /\
  (forall x, In x (tbody (snd r)) <-> In x (tbody d)) /\
  (NoDup (tbody d) ->
     NoDup (tbody (snd r)) /\ Permutation (tbody d) (tbody (snd r))) /\
  (forall k,
     th_classList (snd r) k
     = if Nat.eqb k header && Nat.ltb header (List.length (ths d))
          && returned (fst r)
       then add (if sortedAsc d header then "sorted-desc" else "sorted-asc")
              (remove ["sorted-asc"; "sorted-desc"] (th_classList d header))
       else remove ["sorted-asc"; "sorted-desc"] (th_classList d k)).
Proof.
  intros r. unfold r.
  pose proof (sortTable_unfold colIndex header d) as U. simpl in U.
  destruct (sort _ (tbody d)) as [sorted|e] eqn:Hs.
  - destruct U as (d' & -> & Hh & Hb & Ht). simpl.
    pose proof (sort_perm _ _ _ Hs) as P.
    assert (I : forall x, In x (tbody d') <-> In x (tbody d)).
    { intros x. rewrite Hb, fold_appendChild_In. split.
      - intros [H|H]; [|exact H].
        eapply Permutation_in; [apply Permutation_sym, P|exact H].
      - intros H. now right. }
    repeat split; try (apply I; assumption).
    + exact Hh.
    + now rewrite Ht, length_update_nth, length_map.
    + rewrite Hb, fold_appendChild_sorted by assumption.
      eapply Permutation_NoDup; eassumption.
    + rewrite Hb, fold_appendChild_sorted; assumption.
    + intros k. unfold th_classList. rewrite Ht, nth_update_nth, length_map.
      rewrite andb_true_r, !nth_cleared. reflexivity.
  - rewrite U. simpl. repeat split; try tauto.
    + apply length_map.
    + apply Permutation_refl.
    + intros k. rewrite andb_false_r. unfold th_classList. simpl.
      apply nth_cleared.
Qed.

(** X13.  A click never touches the other classes of a header: only the two sort
    markers are removed or added, on the clicked header and on all others,
    whether the click returns or throws. *)
Theorem sortTable_keeps_other_classes colIndex header d k t :
  t <> "sorted-asc" -> t <> "sorted-desc" ->
  contains (th_classList (snd (sortTable colIndex header d)) k) t
  = contains (th_classList d k) t.
Proof.
  intros Ha Hd.
  destruct (sortTable_state colIndex header d) as (_ & _ & _ & _ & Ht).
  rewrite Ht.
  assert (R : forall c, contains (remove ["sorted-asc"; "sorted-desc"] c) t
                        = contains c t).
  { intros c. rewrite contains_remove. simpl.
    destruct (String.eqb_spec t "sorted-asc"); [contradiction|].
    destruct (String.eqb_spec t "sorted-desc"); [contradiction|].
    apply andb_true_r. }
  destruct (Nat.eqb_spec k header) as [->|N]; simpl; [|apply R].
  destruct (_ && _); [|apply R].
  rewrite contains_add, R.
  destruct (sortedAsc d header);
    [destruct (String.eqb_spec t "sorted-desc")
    |destruct (String.eqb_spec t "sorted-asc")];
    try contradiction; apply orb_false_r.
Qed.

Lemma sortTable_keeps_other_classes_witness :
  contains (th_classList (snd (sortTable 0 1 ledger)) 1) "wide" = true.
Proof.
  rewrite (sortTable_keeps_other_classes 0 1 ledger 1 "wide");
    [reflexivity|discriminate|discriminate].
Defined.

(** X12.  The two listeners commute: filtering and then sorting leaves the same
    completion, the same body, the same headers and the same rows as
    sorting and then filtering. *)
Theorem sort_change_commute colIndex header checked d :
  let a := sortTable colIndex header (change checked d) in
  let b := sortTable colIndex header d in
  fst a = fst b /\
  tbody (snd a) = tbody (change checked (snd b)) /\
  ths (snd a) = ths (change checked (snd b)) /\
  forall n,
    cells (heap (snd a) n) = cells (heap (change checked (snd b)) n) /\
    classList (heap (snd a) n) = classList (heap (change checked (snd b)) n).
Proof.
  intros a b. unfold a, b.
  set (dc := change checked d).
  assert (Ec : forall direction x y,
             comparator dc direction colIndex x y
             = comparator d direction colIndex x y).
  { intros. rewrite !comparator_rowKey. unfold rowKey, dc.
    now rewrite !change_cells. }
  assert (Ea : sortedAsc dc header = sortedAsc d header).
  { unfold sortedAsc, th_classList, dc. now rewrite change_ths. }
  pose proof (sortTable_unfold colIndex header dc) as Ua.
  pose proof (sortTable_unfold colIndex header d) as Ub. simpl in Ua, Ub.
  rewrite Ea in Ua.
  rewrite (sort_ext _ _ (tbody dc) (Ec _)) in Ua.
  unfold dc in Ua at 1. rewrite change_tbody in Ua.
  destruct (sortTable_state colIndex header d) as (Hh & _ & Hi & _).
  destruct (sort _ (tbody d)) as [sorted|e].
  - destruct Ua as (da & -> & Hha & Hba & Hta).
    destruct Ub as (db & Eb & Hhb & Hbb & Htb).
    rewrite Eb in Hh, Hi |- *. simpl in *.
    rewrite change_tbody, change_ths.
    split; [reflexivity|]. split.
    { rewrite Hba, Hbb. apply fold_appendChild_tbody_ext. apply change_tbody. }
    split.
    { rewrite Hta, Htb. unfold dc. now rewrite change_ths. }
    intros n. rewrite change_cells, Hha, Hhb. unfold dc. rewrite change_cells.
    split; [reflexivity|].
    rewrite !change_classList, Hhb. now rewrite (existsb_In_ext n _ _ Hi).
  - rewrite Ua, Ub in *. simpl in *.
    rewrite change_tbody, change_ths.
    unfold dc. rewrite change_tbody, change_ths.
    repeat split; try reflexivity.
    + now rewrite !change_cells.
    + now rewrite !change_classList.
Qed.

Lemma comparator_heap_ext d1 d2 direction colIndex a b :
  heap d1 = heap d2 ->
  comparator d1 direction colIndex a b = comparator d2 direction colIndex a b.
Proof. intros E. unfold comparator, cellText. now rewrite E. Qed.

Lemma sortTable_returns colIndex header d :
  has_column d colIndex -> fst (sortTable colIndex header d) = Normal tt.
Proof.
  intros Hc. pose proof (sortTable_unfold colIndex header d) as U. simpl in U.
  destruct (sort_rows_returns d (if sortedAsc d header then -1 else 1) colIndex Hc)
    as [sorted Hs].
  rewrite Hs in U. destruct U as (d' & -> & _). reflexivity.
Qed.

(** X14.  Changing column starts ascending.  After a click on one header,
    whether it returned or threw, a click on another header sorts its
    column ascending and leaves that header with the ascending marker and
    without the descending one. *)
Theorem click_other_header_sorts_ascending col1 k col2 h d :
  h <> k ->
  (h < List.length (ths d))%nat ->
  NoDup (tbody d) ->
  has_column d col2 ->
  let d1 := snd (sortTable col1 k d) in
  exists d2,
    sortTable col2 h d1 = (Normal tt, d2) /\
    sort (comparator d 1 col2) (tbody d1) = Normal (tbody d2) /\
    sortedAsc d2 h = true /\
    sortedDesc d2 h = false.
Proof.
  intros Hk Hh ND Hc d1.
  destruct (sortTable_state col1 k d) as (Hh1 & Hl1 & Hi1 & Hn1 & Ht1).
  fold d1 in Hh1, Hl1, Hi1, Hn1, Ht1.
  destruct (Hn1 ND) as [ND1 _].
  assert (A1 : sortedAsc d1 h = false).
  { unfold sortedAsc. rewrite Ht1.
    destruct (Nat.eqb_spec h k) as [E|_]; [contradiction|]. simpl.
    rewrite contains_remove. simpl. apply andb_false_r. }
  assert (Hc1 : has_column d1 col2).
  { intros n Hn. rewrite Hh1. apply Hc. now apply Hi1. }
  pose proof (sortTable_returns col2 h d1 Hc1) as R.
  pose proof (sortTable_body col2 h d1 ND1) as B.
  destruct (sortTable_state col2 h d1) as (_ & _ & _ & _ & Ht2).
  rewrite A1 in B, Ht2.
  rewrite (sort_ext _ (comparator d 1 col2) _
             (fun a b => comparator_heap_ext d1 d 1 col2 a b Hh1)) in B.
  destruct (sort (comparator d 1 col2) (tbody d1)) as [sorted|e];
    destruct B as [B1 B2]; [|congruence].
  exists (snd (sortTable col2 h d1)). repeat split.
  - destruct (sortTable col2 h d1) as [c d2]. simpl in *. now subst c.
  - now rewrite B2.
  - unfold sortedAsc. rewrite Ht2, Nat.eqb_refl, Hl1, R. simpl.
    apply Nat.ltb_lt in Hh. rewrite Hh. simpl.
    rewrite contains_add. apply orb_true_r.
  - unfold sortedDesc. rewrite Ht2, Nat.eqb_refl, Hl1, R. simpl.
    apply Nat.ltb_lt in Hh. rewrite Hh. simpl.
    rewrite contains_add, contains_remove. simpl.
    now rewrite orb_false_r, andb_false_r.
Qed.

Lemma click_other_header_sorts_ascending_witness :
  sortedAsc ledger 1 = true /\
  exists d2,
    sortTable 1 1 (snd (sortTable 0 0 ledger)) = (Normal tt, d2) /\
    sort (comparator ledger 1 1) (tbody (snd (sortTable 0 0 ledger)))
      = Normal (tbody d2) /\
    sortedAsc d2 1 = true /\
    sortedDesc d2 1 = false.
Proof.
  split; [reflexivity|].
  apply (click_other_header_sorts_ascending 0 0 1 1 ledger).
  - discriminate.
  - simpl. lia.
  - simpl. repeat constructor; simpl; lia.
  - intros n [<-|[<-|[<-|[<-|[]]]]]; simpl; lia.
Defined.

(** ** Runs of events *)

Lemma existsb_seq i n : existsb (Nat.eqb i) (seq 0 n) = Nat.ltb i n.
Proof.
  destruct (Nat.ltb_spec i n) as [L|L].
  - apply existsb_exists. exists i. split; [apply in_seq; lia|apply Nat.eqb_refl].
  - destruct (existsb (Nat.eqb i) (seq 0 n)) eqn:E; [|reflexivity].
    apply existsb_exists in E as (x & Hx & Ex).
    apply in_seq in Hx. apply Nat.eqb_eq in Ex. lia.
Qed.

Lemma change_error checked d n : error (change checked d) n = error d n.
Proof. apply (fold_filterRow_frame checked (tbody d) d). Qed.

(** What any one event leaves alone. *)
Lemma dispatch_state ls e d :
  let r := dispatch ls e d in
  (forall n, cells (heap (snd r) n) = cells (heap d n)) /\
  (forall n, error (snd r) n = error d n) /\
  List.length (ths (snd r)) = List.length (ths d) /\
  (forall x, In x (tbody (snd r)) <-> In x (tbody d)) /\
  (NoDup (tbody d) ->
     NoDup (tbody (snd r)) /\ Permutation (tbody d) (tbody (snd r))).
Proof.
  assert (T : forall d0 : Document,
    (forall n, cells (heap d0 n) = cells (heap d0 n)) /\
    (forall n, error d0 n = error d0 n) /\
    List.length (ths d0) = List.length (ths d0) /\
    (forall x, In x (tbody d0) <-> In x (tbody d0)) /\
    (NoDup (tbody d0) -> NoDup (tbody d0) /\ Permutation (tbody d0) (tbody d0))).
  { intros d0. repeat split; auto. }
  destruct e as [index|checked]; simpl.
  - destruct (existsb (Nat.eqb index) (clickListeners ls)); [|apply T].
    unfold click.
    destruct (sortTable_state index index d) as (Hh & Hl & Hi & Hn & _).
    unfold error. rewrite Hh. repeat split; try assumption; try apply Hi;
      apply Hn; assumption.
  - destruct (changeListener ls); [|apply T]. simpl.
    rewrite change_tbody, change_ths.
    repeat split; auto using change_cells, change_error, Permutation_refl.
Qed.

Lemma dispatch_returns ls e d :
  well_formed d ->
  (forall i, In i (clickListeners ls) -> (i < List.length (ths d))%nat) ->
  fst (dispatch ls e d) = Normal tt.
Proof.
  intros W L. destruct e as [index|checked]; simpl.
  - destruct (existsb (Nat.eqb index) (clickListeners ls)) eqn:E; [|reflexivity].
    apply existsb_exists in E as (x & Hx & Ex). apply Nat.eqb_eq in Ex. subst x.
    apply sortTable_returns. intros n Hn. rewrite (W n Hn). now apply L.
  - destruct (changeListener ls); reflexivity.
Qed.

Lemma run_cons ls e es d :
  run ls (e :: es) d
  = (fst (dispatch ls e d) :: fst (run ls es (snd (dispatch ls e d))),
     snd (run ls es (snd (dispatch ls e d)))).
Proof.
  simpl. destruct (dispatch ls e d) as [c d1]. simpl.
  destruct (run ls es d1); reflexivity.
Qed.

Lemma run_invariant ls es d :
  well_formed d ->
  (forall i, In i (clickListeners ls) -> (i < List.length (ths d))%nat) ->
  let r := run ls es d in
  Forall (fun c => c = Normal tt) (fst r) /\
  well_formed (snd r) /\
  (forall n, cells (heap (snd r) n) = cells (heap d n)) /\
  (NoDup (tbody d) ->
     NoDup (tbody (snd r)) /\ Permutation (tbody d) (tbody (snd r))).
Proof.
  revert d; induction es as [|e es IH]; intros d W L.
  - simpl. repeat split; auto using Permutation_refl.
  - rewrite run_cons. cbv zeta. simpl fst. simpl snd.
    destruct (dispatch_state ls e d) as (Hc & _ & Hl & Hi & Hn).
    set (d1 := snd (dispatch ls e d)) in *.
    assert (W1 : well_formed d1).
    { intros n Hn1. rewrite Hc, Hl. apply W. now apply Hi. }
    assert (L1 : forall i, In i (clickListeners ls) ->
                 (i < List.length (ths d1))%nat).
    { intros i Hi1. rewrite Hl. now apply L. }
    destruct (IH d1 W1 L1) as (F & W2 & C2 & N2).
    repeat split.
    + constructor; [apply dispatch_returns; assumption|exact F].
    + exact W2.
    + intros n. now rewrite C2, Hc.
    + apply N2. apply Hn. assumption.
    + destruct (Hn H) as [ND1 P1]. destruct (N2 ND1) as [_ P2].
      eapply Permutation_trans; eassumption.
Qed.

(** X15.  On a page that has the table and the checkbox, with one cell per header
    in every body row, the script loads without a throw and no run of
    clicks and changes ever makes a listener throw; the body keeps holding
    the same rows, each once, with their cells, and stays well formed. *)
Theorem session_never_throws p d es :
  table p = Some d ->
  filterCheckbox p = true ->
  well_formed d ->
  NoDup (tbody d) ->
  fst (DOMContentLoaded p) = Normal tt /\
  let r := run (snd (DOMContentLoaded p)) es d in
  Forall (fun c => c = Normal tt) (fst r) /\
  well_formed (snd r) /\
  (forall n, cells (heap (snd r) n) = cells (heap d n)) /\
  NoDup (tbody (snd r)) /\
  Permutation (tbody d) (tbody (snd r)).
Proof.
  intros Ht Hf W ND. unfold DOMContentLoaded. rewrite Ht, Hf. simpl.
  split; [reflexivity|].
  destruct (run_invariant
              {| clickListeners := seq 0 (List.length (ths d));
                 changeListener := true |} es d W) as (F & W' & C & N).
  - simpl. intros i Hi. apply in_seq in Hi. lia.
  - destruct (N ND). repeat split; assumption.
Qed.

Lemma session_never_throws_witness :
  let p := {| table := Some ledger; filterCheckbox := true |} in
  let es := [Click 1; Change true; Click 0; Click 0; Click 7; Change false] in
  fst (DOMContentLoaded p) = Normal tt /\
  let r := run (snd (DOMContentLoaded p)) es ledger in
  Forall (fun c => c = Normal tt) (fst r) /\
  well_formed (snd r) /\
  (forall n, cells (heap (snd r) n) = cells (heap ledger n)) /\
  NoDup (tbody (snd r)) /\
  Permutation (tbody ledger) (tbody (snd r)).
Proof.
  intros p es.
  apply (session_never_throws p ledger es); try reflexivity.
  - intros n [<-|[<-|[<-|[<-|[]]]]]; reflexivity.
  - simpl. repeat constructor; simpl; lia.
Defined.

Lemma last_change_cons_None e es :
  last_change (e :: es) = None ->
  last_change es = None /\ exists index, e = Click index.
Proof.
  simpl. destruct (last_change es); [discriminate|].
  destruct e as [index|c]; [|discriminate]. intros _. split; eauto.
Qed.

Lemma last_click_cons_None e es :
  last_click (e :: es) = None ->
  last_click es = None /\ exists checked, e = Change checked.
Proof.
  simpl. destruct (last_click es); [discriminate|].
  destruct e as [index|c]; [discriminate|]. intros _. split; eauto.
Qed.

Lemma dispatch_click_classList ls index d n :
  classList (heap (snd (dispatch ls (Click index) d)) n) = classList (heap d n).
Proof.
  simpl. destruct (existsb (Nat.eqb index) (clickListeners ls)); [|reflexivity].
  unfold click. destruct (sortTable_state index index d) as (-> & _). reflexivity.
Qed.

(** Without a change that reaches the listener, no row's class list moves. *)
Lemma run_classes ls es d n :
  changeListener ls = false \/ last_change es = None ->
  classList (heap (snd (run ls es d)) n) = classList (heap d n).
Proof.
  revert d; induction es as [|e es IH]; intros d H; [reflexivity|].
  rewrite run_cons. simpl snd. destruct H as [H|H].
  - rewrite IH by (now left). destruct e as [index|c].
    + apply dispatch_click_classList.
    + simpl. now rewrite H.
  - apply last_change_cons_None in H as (H & index & ->).
    rewrite IH by (now right). apply dispatch_click_classList.
Qed.

Lemma run_no_click ls es d :
  last_click es = None -> ths (snd (run ls es d)) = ths d.
Proof.
  revert d; induction es as [|e es IH]; intros d H; [reflexivity|].
  apply last_click_cons_None in H as (H & c & ->).
  rewrite run_cons. simpl snd. rewrite IH by assumption. simpl.
  destruct (changeListener ls); [apply change_ths|reflexivity].
Qed.

(** X16.  Only the last change counts, whatever clicks and changes came before or
    after it: at the end of a run a body row is hidden exactly when the
    last change checked the box and the row had no error marker at the
    start; a run without a change leaves the hidden rows as they were. *)
Theorem session_filter_state ls es d n :
  changeListener ls = true ->
  In n (tbody d) ->
  hidden (snd (run ls es d)) n
  = match last_change es with
    | Some checked => checked && negb (error d n)
    | None => hidden d n
    end.
Proof.
  intros Hl. revert d; induction es as [|e es IH]; intros d Hn; [reflexivity|].
  destruct (dispatch_state ls e d) as (_ & He & _ & Hi & _).
  destruct (last_change (e :: es)) as [c|] eqn:E.
  - rewrite run_cons. simpl snd. rewrite IH by (now apply Hi).
    simpl in E. destruct (last_change es) as [c'|].
    + assert (c' = c) by (destruct e; congruence). subst c'. now rewrite He.
    + destruct e as [index|c']; [discriminate|]. injection E as ->.
      assert (Hd : snd (dispatch ls (Change c) d) = change c d)
        by (simpl; now rewrite Hl).
      rewrite Hd.
      pose proof (fold_filterRow_hidden c (tbody d) d n Hn) as Hh.
      fold (change c d) in Hh. rewrite Hh. now destruct c.
  - unfold hidden. now rewrite run_classes by (now right).
Qed.

Lemma session_filter_state_witness :
  let ls := {| clickListeners := [0; 1; 2]%nat; changeListener := true |} in
  let es := [Change false; Click 1; Change true; Click 0; Click 0] in
  map (hidden (snd (run ls es ledger))) (tbody ledger) = [true; false; true; false] /\
  hidden (snd (run ls es ledger)) 2 = true && negb (error ledger 2).
Proof.
  intros ls es. split; [reflexivity|].
  apply (session_filter_state ls es ledger 2); [reflexivity|].
  simpl. lia.
Defined.

Lemma run_marker ls es d h :
  well_formed d ->
  clickListeners ls = seq 0 (List.length (ths d)) ->
  last_click es = Some h ->
  (h < List.length (ths d))%nat ->
  forall k,
    sortedAsc (snd (run ls es d)) k || sortedDesc (snd (run ls es d)) k = true
    <-> k = h.
Proof.
  revert d; induction es as [|e es IH]; intros d W L E Hh k; [discriminate|].
  rewrite run_cons. simpl snd.
  destruct (dispatch_state ls e d) as (Hc & _ & Hl & Hi & _).
  set (d1 := snd (dispatch ls e d)) in *.
  assert (W1 : well_formed d1).
  { intros n Hn1. rewrite Hc, Hl. apply W. now apply Hi. }
  simpl in E. destruct (last_click es) as [h'|] eqn:E'.
  - assert (h' = h) by (destruct e; congruence). subst h'.
    apply IH; try assumption; try reflexivity; now rewrite Hl.
  - destruct e as [index|c]; [|discriminate]. injection E as ->.
    unfold sortedAsc, sortedDesc, th_classList.
    rewrite (run_no_click ls es d1 E'). fold (th_classList d1 k).
    unfold d1. simpl. rewrite L, existsb_seq.
    apply Nat.ltb_lt in Hh. rewrite Hh. unfold click.
    destruct (sortTable_state h h d) as (_ & _ & _ & _ & Ht).
    rewrite Ht, Hh.
    rewrite (sortTable_returns h h d)
      by (intros n Hn; rewrite (W n Hn); now apply Nat.ltb_lt).
    simpl. rewrite !andb_true_r.
    destruct (Nat.eqb_spec k h) as [->|N].
    + rewrite !contains_add. split; [reflexivity|intros _].
      destruct (sortedAsc d h); simpl; now rewrite ?orb_true_r.
    + rewrite !contains_remove. simpl. rewrite !andb_false_r. simpl.
      split; [discriminate|contradiction].
Qed.

(** X17.  One marked header.  At the end of any run on a well-formed page whose
    last click was on an existing header, that header carries a sort marker
    and no other header does. *)
Theorem session_marker p d es h :
  table p = Some d ->
  well_formed d ->
  last_click es = Some h ->
  (h < List.length (ths d))%nat ->
  let final := snd (run (snd (DOMContentLoaded p)) es d) in
  forall k, sortedAsc final k || sortedDesc final k = true <-> k = h.
Proof.
  intros Ht W E Hh. apply run_marker; try assumption.
  unfold DOMContentLoaded. rewrite Ht. destruct (filterCheckbox p); reflexivity.
Qed.

Lemma session_marker_witness :
  let p := {| table := Some ledger; filterCheckbox := true |} in
  let es := [Click 1; Click 2; Change true; Click 0; Change false] in
  ths (snd (run (snd (DOMContentLoaded p)) es ledger))
  = [["sorted-asc"]; ["wide"]; []] /\
  forall k,
    sortedAsc (snd (run (snd (DOMContentLoaded p)) es ledger)) k
    || sortedDesc (snd (run (snd (DOMContentLoaded p)) es ledger)) k = true
    <-> k = 0%nat.
Proof.
  intros p es. split; [reflexivity|].
  apply (session_marker p ledger es 0); try reflexivity.
  - intros n [<-|[<-|[<-|[<-|[]]]]]; reflexivity.
  - simpl. lia.
Defined.

(** X18.  A page without the checkbox.  The script throws when it reaches the
    checkbox, after the headers have got their listeners: a click on a
    header still runs sortTable, and no run of events ever changes the
    class list of a row. *)
Theorem missing_checkbox p d :
  table p = Some d ->
  filterCheckbox p = false ->
  fst (DOMContentLoaded p) = Throw TypeError /\
  (forall index, (index < List.length (ths d))%nat ->
     dispatch (snd (DOMContentLoaded p)) (Click index) d = click index d) /\
  (forall es n,
     classList (heap (snd (run (snd (DOMContentLoaded p)) es d)) n)
     = classList (heap d n)).
Proof.
  intros Ht Hf. unfold DOMContentLoaded. rewrite Ht, Hf. simpl.
  split; [reflexivity|]. split.
  - intros index Hi. rewrite existsb_seq.
    apply Nat.ltb_lt in Hi. now rewrite Hi.
  - intros es n. apply run_classes. now left.
Qed.

Lemma missing_checkbox_witness :
  let p := {| table := Some ledger; filterCheckbox := false |} in
  fst (DOMContentLoaded p) = Throw TypeError /\
  tbody (snd (run (snd (DOMContentLoaded p)) [Change true; Click 0] ledger))
  = [1; 3; 2; 0]%nat /\
  classList (heap (snd (run (snd (DOMContentLoaded p)) [Change true; Click 0] ledger)) 0)
  = [].
Proof.
  intros p.
  destruct (missing_checkbox p ledger eq_refl eq_refl) as (H1 & _ & H3).
  split; [exact H1|]. split; [reflexivity|].
  rewrite (H3 [Change true; Click 0] 0%nat). reflexivity.
Defined.

(** ** What sortTable reads *)

(** X19.  The order a click leaves depends on the body, on the cells of the
    clicked column and on the ascending marker of the clicked header, and
    on nothing else: two pages that agree on these get the same completion
    and the same body, whatever their other cells, classes and headers. *)
Theorem sortTable_reads_clicked_column_only colIndex header d1 d2 :
  tbody d1 = tbody d2 ->
  sortedAsc d1 header = sortedAsc d2 header ->
  (forall n, In n (tbody d1) ->
     nth_error (cells (heap d1 n)) colIndex
     = nth_error (cells (heap d2 n)) colIndex) ->
  fst (sortTable colIndex header d1) = fst (sortTable colIndex header d2) /\
  tbody (snd (sortTable colIndex header d1))
  = tbody (snd (sortTable colIndex header d2)).
Proof.
  intros Eb Ea Ec.
  pose proof (sortTable_unfold colIndex header d1) as U1.
  pose proof (sortTable_unfold colIndex header d2) as U2. simpl in U1, U2.
  rewrite <- Ea, <- Eb in U2.
  rewrite (sort_ext_in
             (comparator d2 (if sortedAsc d1 header then -1 else 1) colIndex)
             (comparator d1 (if sortedAsc d1 header then -1 else 1) colIndex))
    in U2.
  - destruct (sort _ (tbody d1)) as [sorted|e].
    + destruct U1 as (d1' & -> & _ & Hb1 & _).
      destruct U2 as (d2' & -> & _ & Hb2 & _). simpl.
      split; [reflexivity|]. rewrite Hb1, Hb2.
      now apply fold_appendChild_tbody_ext.
    + rewrite U1, U2. simpl. split; [reflexivity|exact Eb].
  - intros a b Ha Hb. unfold comparator, cellText.
    now rewrite (Ec a Ha), (Ec b Hb).
Qed.

Lemma sortTable_reads_clicked_column_only_witness :
  fst (sortTable 0 0 ledger) = fst (sortTable 0 0 ledger_variant) /\
  tbody (snd (sortTable 0 0 ledger)) = tbody (snd (sortTable 0 0 ledger_variant)).
Proof.
  apply (sortTable_reads_clicked_column_only 0 0 ledger ledger_variant);
    try reflexivity.
  intros n [<-|[<-|[<-|[<-|[]]]]]; reflexivity.
Defined.
